(** * The backfiller of [clustering/backfiller.hpp]

    A shallow embedding of [backfiller_t<protocol_t>]: its constructor, the two
    mailbox callbacks [on_backfill] and [on_cancel_backfill], and the implicit
    destructor.  The callbacks run as cooperative coroutines on the home thread
    of the backfiller ([assert_thread()]), so the embedding is a step function
    on one state: a step is the delivery of a message, a move of the store
    inside one suspended [store->backfiller(...)] call, or a move of the
    destructor.  Between two steps nothing else runs. *)

From stdpp Require Import base option list gmap strings.
From Stdlib Require Import NArith Lia.

Set Default Proof Using "Type".

(** ** Values the code treats as opaque *)

(** [backfiller_metadata_t<protocol_t>::backfill_session_id_t]. *)
Abbreviation session_id_t := nat (only parsing).
(** [async_mailbox_t<...>::address_t]. *)
Abbreviation address_t := nat (only parsing).
(** [branch_id_t]. *)
Abbreviation branch_id_t := nat (only parsing).
(** [state_timestamp_t]: totally ordered, compared with [>=] on line 31. *)
Abbreviation state_timestamp_t := N (only parsing).

(** The template parameter [protocol_t]: the types the code takes from it. *)
Class protocol_t := Protocol {
  region_t : Type;
  region_eq_dec :: EqDecision region_t;
  backfill_request_t : Type;
  backfill_chunk_t : Type;
}.

(** ** Exceptions, assertions and results of a call *)

(** What a C++ call can throw here: the interruption, or anything else the
    store raises. *)
Inductive exception :=
| interrupted_exc_t
| store_exc (what : nat).

(** A call returns, throws an exception that propagates to its caller, or
    stops the process (a failed [rassert], an access through a dead pointer). *)
Inductive result (A : Type) :=
| Returns (a : A)
| Throws (e : exception)
| Aborts.
Arguments Returns {A} a.
Arguments Throws {A} e.
Arguments Aborts {A}.

#[global] Instance result_ret : MRet result := @Returns.
#[global] Instance result_bind : MBind result := fun A B k r =>
  match r with
  | Returns a => k a
  | Throws e => Throws e
  | Aborts => Aborts
  end.

(** [try { body } catch (interrupted_exc_t) { handler }]: the handler runs for
    the interruption only; every other exception leaves the block. *)
Definition try_catch_interrupted {A} (body handler : result A) : result A :=
  match body with
  | Throws interrupted_exc_t => handler
  | r => r
  end.

(** Modelled from the spec: the macro [rassert] is not among the sources; the
    spec calls the two checks of the constructor "checked synchronously, fatal
    if violated".  A failed [rassert] stops the process. *)
Definition rassert (b : bool) : result unit :=
  if b then Returns () else Aborts.

(** ** Signals *)

(** Modelled from the spec: [cond_t] is not among the sources.  The spec has it
    as "a one-shot cooperative cancellation flag" that is triggered "exactly
    once", and "triggering an already-triggered signal is a programming error /
    undefined". *)
Record cond_t := Cond { is_pulsed : bool }.

Definition pulse (c : cond_t) : result cond_t :=
  if is_pulsed c then Aborts else Returns (Cond true).

(** Modelled from the spec: [auto_drainer_t] is not among the sources.  The
    spec has it as "an explicit in-flight counter plus a shutdown broadcast
    signal; every handler holds a lease on the counter for its duration;
    destruction awaits counter reaching zero after broadcasting shutdown".
    [lock_count] counts the live [auto_drainer_t::lock_t] objects. *)
Record auto_drainer_t := Drainer {
  drain_signal : cond_t;
  lock_count : nat;
}.

Section Backfiller.
Context {protocol : protocol_t}.

(** ** The store and the branch history (lines 18-20, 30-31) *)

(** What [ready_store_t<protocol_t>] answers to [get_region()] and
    [get_timestamp()]. *)
Record ready_store_t := Store {
  get_region : region_t;
  get_timestamp : state_timestamp_t;
}.

(** The fields of a branch's metadata the constructor reads. *)
Record branch_metadata_t := Branch {
  region : region_t;
  initial_timestamp : state_timestamp_t;
}.

(** The branch history view and [branch_find] are not among the sources: they
    are parameters of the development. *)
Context {branch_history_t : Type}.
Variable branch_find : branch_history_t -> branch_id_t -> branch_metadata_t.

(** ** Messages and coroutines *)

(** The two messages [on_backfill] sends with [send(cluster, address, ...)]. *)
Inductive message :=
| chunk_message (to : address_t) (c : backfill_chunk_t)
| end_message (to : address_t) (t : state_timestamp_t).

(** How an activation of [on_backfill] left: by returning, or by an exception
    that passed through it. *)
Inductive exit_t :=
| returned
| propagated (e : exception).

Inductive frame_state :=
| suspended              (* inside [store->backfiller(...)], lines 68-71 *)
| finished (how : exit_t).

(** One activation of [on_backfill]: its arguments and its local
    [local_interruptor].  An activation is named by its index in [frames];
    [&local_interruptor] is that index. *)
Record frame := Frame {
  session_id : session_id_t;
  request : backfill_request_t;
  chunk_cont : address_t;
  end_cont : address_t;
  local_interruptor : cond_t;
  state : frame_state;
}.

Definition with_local_interruptor (f : frame) (c : cond_t) : frame :=
  Frame (session_id f) (request f) (chunk_cont f) (end_cont f) c (state f).
Definition with_state (f : frame) (st : frame_state) : frame :=
  Frame (session_id f) (request f) (chunk_cont f) (end_cont f)
    (local_interruptor f) st.

(** The non-static data members of [backfiller_t], in the order of their
    declarations (lines 95-107). *)
Inductive member :=
| m_cluster
| m_branch_history
| m_store
| m_store_branch
| m_drainer
| m_local_interruptors
| m_backfill_mailbox
| m_cancel_backfill_mailbox
| m_advertisement.

#[global] Instance member_eq_dec : EqDecision member.
Proof. solve_decision. Defined.

Definition members : list member :=
  [ m_cluster; m_branch_history; m_store; m_store_branch; m_drainer;
    m_local_interruptors; m_backfill_mailbox; m_cancel_backfill_mailbox;
    m_advertisement ].

(** The class declares no destructor: the implicit one destroys the members in
    the reverse order of their declarations. *)
Definition destruction_order : list member := rev members.

(** The backfiller and what surrounds it.
    - [cluster]: the messages sent through [cluster] so far, oldest first, each
      with the activation that sent it (the index is a ghost label);
    - [backfill_mailbox], [cancel_backfill_mailbox]: whether the mailbox still
      exists (messages are delivered to a live mailbox only);
    - [advertisement]: whether the advertisement record is published;
    - [frames]: every activation of [on_backfill] so far;
    - [dying]: [None] while the object is alive, otherwise the members the
      destructor has still to destroy. *)
Record backfiller_t := Backfiller {
  cluster : list (nat * message);
  branch_history : branch_history_t;
  store : ready_store_t;
  store_branch : branch_id_t;
  drainer : auto_drainer_t;
  local_interruptors : gmap session_id_t nat;
  backfill_mailbox : bool;
  cancel_backfill_mailbox : bool;
  advertisement : bool;
  frames : list frame;
  dying : option (list member);
}.

Definition with_cluster (w : backfiller_t) (c : list (nat * message)) :=
  Backfiller c (branch_history w) (store w) (store_branch w) (drainer w)
    (local_interruptors w) (backfill_mailbox w) (cancel_backfill_mailbox w)
    (advertisement w) (frames w) (dying w).
Definition with_drainer (w : backfiller_t) (d : auto_drainer_t) :=
  Backfiller (cluster w) (branch_history w) (store w) (store_branch w) d
    (local_interruptors w) (backfill_mailbox w) (cancel_backfill_mailbox w)
    (advertisement w) (frames w) (dying w).
Definition with_local_interruptors (w : backfiller_t) (m : gmap session_id_t nat) :=
  Backfiller (cluster w) (branch_history w) (store w) (store_branch w) (drainer w)
    m (backfill_mailbox w) (cancel_backfill_mailbox w)
    (advertisement w) (frames w) (dying w).
Definition with_backfill_mailbox (w : backfiller_t) (b : bool) :=
  Backfiller (cluster w) (branch_history w) (store w) (store_branch w) (drainer w)
    (local_interruptors w) b (cancel_backfill_mailbox w)
    (advertisement w) (frames w) (dying w).
Definition with_cancel_backfill_mailbox (w : backfiller_t) (b : bool) :=
  Backfiller (cluster w) (branch_history w) (store w) (store_branch w) (drainer w)
    (local_interruptors w) (backfill_mailbox w) b
    (advertisement w) (frames w) (dying w).
Definition with_advertisement (w : backfiller_t) (b : bool) :=
  Backfiller (cluster w) (branch_history w) (store w) (store_branch w) (drainer w)
    (local_interruptors w) (backfill_mailbox w) (cancel_backfill_mailbox w)
    b (frames w) (dying w).
Definition with_frames (w : backfiller_t) (fs : list frame) :=
  Backfiller (cluster w) (branch_history w) (store w) (store_branch w) (drainer w)
    (local_interruptors w) (backfill_mailbox w) (cancel_backfill_mailbox w)
    (advertisement w) fs (dying w).
Definition with_dying (w : backfiller_t) (d : option (list member)) :=
  Backfiller (cluster w) (branch_history w) (store w) (store_branch w) (drainer w)
    (local_interruptors w) (backfill_mailbox w) (cancel_backfill_mailbox w)
    (advertisement w) (frames w) d.

(** ** Construction (lines 15-32) *)

(** The member initialisers, lines 22-26.  The two mailboxes are created, each
    with a callback that holds an [auto_drainer_t::lock_t(&drainer)] of its
    own, and the advertisement is published. *)
Definition initialised (bh : branch_history_t) (s : ready_store_t)
    (sb : branch_id_t) : backfiller_t :=
  {| cluster := [];
     branch_history := bh;
     store := s;
     store_branch := sb;
     drainer := Drainer (Cond false) 2;
     local_interruptors := ∅;
     backfill_mailbox := true;
     cancel_backfill_mailbox := true;
     advertisement := true;
     frames := [];
     dying := None |}.

(** The constructor: the initialisers, then the two assertions of its body
    (lines 30-31). *)
Definition backfiller_new (bh : branch_history_t) (s : ready_store_t)
    (sb : branch_id_t) : result backfiller_t :=
  let w := initialised bh s sb in
  _ ← rassert (bool_decide
        (get_region (store w) = region (branch_find (branch_history w) (store_branch w))));
  _ ← rassert (initial_timestamp (branch_find (branch_history w) (store_branch w))
        <=? get_timestamp (store w))%N;
  Returns w.

(** ** Pieces of [on_backfill] *)

(** [send(cluster, address, message)], by the activation [from]. *)
Definition send (from : nat) (m : message) (w : backfiller_t) : backfiller_t :=
  with_cluster w (cluster w ++ [(from, m)]).

(** Copying and destroying an [auto_drainer_t::lock_t]. *)
Definition lock_copy (w : backfiller_t) : backfiller_t :=
  with_drainer w (Drainer (drain_signal (drainer w)) (S (lock_count (drainer w)))).
Definition lock_drop (w : backfiller_t) : backfiller_t :=
  with_drainer w (Drainer (drain_signal (drainer w)) (pred (lock_count (drainer w)))).

(** Modelled from the spec: [map_insertion_sentry_t] is not among the sources.
    The spec has it as "a scoped entry session_id -> local_interrupt in the
    session registry for the duration of this call; the entry is guaranteed
    removed when the call returns by any path": its constructor inserts the
    entry, its destructor removes the entry of that key. *)
Definition sentry_enter (sid : session_id_t) (p : nat) (w : backfiller_t) : backfiller_t :=
  with_local_interruptors w (<[sid := p]> (local_interruptors w)).
Definition sentry_leave (sid : session_id_t) (w : backfiller_t) : backfiller_t :=
  with_local_interruptors w (delete sid (local_interruptors w)).

(** [wait_any_t interrupted(&local_interruptor, keepalive.get_drain_signal())]
    (line 52): pulsed as soon as one of the two signals is. *)
Definition interrupted (w : backfiller_t) (f : frame) : bool :=
  is_pulsed (local_interruptor f) || is_pulsed (drain_signal (drainer w)).

(** Lines 37-63 and the call on line 68: the callback receives a copy of the
    lock bound on line 24, creates [local_interruptor], registers it under the
    session id, and enters [store->backfiller(request, send_fun, &interrupted)],
    where it is suspended. *)
Definition on_backfill_enter (sid : session_id_t) (req : backfill_request_t)
    (cc ec : address_t) (w : backfiller_t) : backfiller_t :=
  let w := lock_copy w in
  let p := length (frames w) in
  let w := with_frames w (frames w ++ [Frame sid req cc ec (Cond false) suspended]) in
  sentry_enter sid p w.

(** [send_fun] (lines 57-62) is [send] bound to [cluster] and [chunk_cont]: the
    store calls it with each chunk. *)
Definition send_fun (fid : nat) (f : frame) (c : backfill_chunk_t)
    (w : backfiller_t) : backfiller_t :=
  send fid (chunk_message (chunk_cont f) c) w.

(** Lines 65-81, from the moment the store call is over: [r] is what the call
    did (returned a timestamp, or threw).  [state_timestamp_t end] is
    default-constructed; its value is not read when [success] is false. *)
Definition on_backfill_resume (fid : nat) (f : frame)
    (r : result state_timestamp_t) (w : backfiller_t) : result backfiller_t :=
  '(success, end_) ← try_catch_interrupted
      (end_ ← r; Returns (true, end_))
      (_ ← rassert (interrupted w f); Returns (false, 0%N));
  Returns (if success : bool then send fid (end_message (end_cont f) end_) w else w).

(** Leaving the body of [on_backfill], by [return] or by an exception that
    unwinds it: the locals and the parameters are destroyed, so the sentry
    removes the entry and the lock is dropped. *)
Definition leave_scope (fid : nat) (f : frame) (how : exit_t)
    (w : backfiller_t) : backfiller_t :=
  lock_drop (sentry_leave (session_id f)
    (with_frames w (<[fid := with_state f (finished how)]> (frames w)))).

(** ** [on_cancel_backfill] (lines 84-93) *)

(** The [pulse()] of line 91 goes through the pointer stored in the map: the
    signal of an activation that is gone is a dead object. *)
Definition on_cancel_backfill (sid : session_id_t) (w : backfiller_t)
    : result backfiller_t :=
  match local_interruptors w !! sid with
  | Some p =>
      match frames w !! p with
      | Some f =>
          match state f with
          | suspended =>
              c ← pulse (local_interruptor f);
              Returns (with_frames w (<[p := with_local_interruptor f c]> (frames w)))
          | finished _ => Aborts
          end
      | None => Aborts
      end
  | None => Returns w
  end.

(** ** The steps of the system *)

(** What the store does inside [store->backfiller(...)]: it calls [send_fun]
    with a chunk, returns the timestamp it reached, or throws. *)
Inductive store_action :=
| store_sends (c : backfill_chunk_t)
| store_returns (t : state_timestamp_t)
| store_throws (e : exception).


(** The steps: a start-backfill message reaches [backfill_mailbox] and
    [on_backfill] runs up to its store call; a cancel-backfill message reaches
    [cancel_backfill_mailbox] and [on_cancel_backfill] runs; the store of the
    activation [fid] makes a move; the destructor makes its next move. *)
Inductive event :=
| deliver_backfill (sid : session_id_t) (req : backfill_request_t)
    (chunk_cont end_cont : address_t)
| deliver_cancel_backfill (sid : session_id_t)
| store_does (fid : nat) (a : store_action)
| destructor.

(** A step yields the next state, stops the process, or cannot be taken in this
    state (a message for a mailbox that is gone, a move of a store call that is
    over, a destructor that waits). *)
Inductive outcome :=
| Ok (w : backfiller_t)
| Crash
| Disabled.

(** The store call of activation [fid] is over with [r]: the rest of
    [on_backfill] runs and the activation leaves, by [return] or with the
    exception that the body did not catch. *)
Definition finish (fid : nat) (f : frame) (r : result state_timestamp_t)
    (w : backfiller_t) : outcome :=
  match on_backfill_resume fid f r w with
  | Returns w' => Ok (leave_scope fid f returned w')
  | Throws e => Ok (leave_scope fid f (propagated e) w)
  | Aborts => Crash
  end.

(** A move of the store of activation [fid], which must be inside its store
    call. *)
Definition store_step (fid : nat) (a : store_action) (w : backfiller_t) : outcome :=
  match frames w !! fid with
  | Some f =>
      match state f with
      | suspended =>
          match a with
          | store_sends c => Ok (send_fun fid f c w)
          | store_returns t => finish fid f (Returns t) w
          | store_throws e => finish fid f (Throws e) w
          end
      | finished _ => Disabled
      end
  | None => Disabled
  end.

(** The destructor of one member.  The advertisement is withdrawn; a mailbox
    goes with its callback, which drops the lock bound on line 24 or 25; the
    drainer pulses its drain signal and then waits until no lock is left.  The
    other members are pointers, an identifier and the map, whose destructors
    change nothing that is modelled here (the release of the map's storage is
    not modelled). *)
Definition destroy_member (m : member) (rest : list member)
    (w : backfiller_t) : outcome :=
  match m with
  | m_advertisement =>
      Ok (with_dying (with_advertisement w false) (Some rest))
  | m_cancel_backfill_mailbox =>
      Ok (with_dying (lock_drop (with_cancel_backfill_mailbox w false)) (Some rest))
  | m_backfill_mailbox =>
      Ok (with_dying (lock_drop (with_backfill_mailbox w false)) (Some rest))
  | m_drainer =>
      if is_pulsed (drain_signal (drainer w)) then
        if (lock_count (drainer w) =? 0)%nat
        then Ok (with_dying w (Some rest))
        else Disabled
      else Ok (with_drainer w (Drainer (Cond true) (lock_count (drainer w))))
  | _ => Ok (with_dying w (Some rest))
  end.

(** One step.  The destructor starts with all members to destroy, in
    [destruction_order], and then destroys the first one left. *)
Definition step (e : event) (w : backfiller_t) : outcome :=
  match e with
  | deliver_backfill sid req cc ec =>
      if backfill_mailbox w then Ok (on_backfill_enter sid req cc ec w) else Disabled
  | deliver_cancel_backfill sid =>
      if cancel_backfill_mailbox w then
        match on_cancel_backfill sid w with
        | Returns w' => Ok w'
        | _ => Crash
        end
      else Disabled
  | store_does fid a => store_step fid a w
  | destructor =>
      match dying w with
      | None => Ok (with_dying w (Some destruction_order))
      | Some [] => Disabled
      | Some (m :: rest) => destroy_member m rest w
      end
  end.

(** A run: the steps of [evs], one after the other, as long as they succeed. *)
Fixpoint run (evs : list event) (w : backfiller_t) : outcome :=
  match evs with
  | [] => Ok w
  | e :: evs' =>
      match step e w with
      | Ok w' => run evs' w'
      | o => o
      end
  end.

(** ** Observations *)

(** The messages the activation [fid] sent, oldest first. *)
Definition sent_by (fid : nat) (w : backfiller_t) : list message :=
  omap (fun x : nat * message => if decide (x.1 = fid) then Some x.2 else None)
    (cluster w).




(** The chunk, or the timestamp, that the store of activation [fid] hands over
    in the step [e], if any. *)
Definition chunk_of (fid : nat) (e : event) : option backfill_chunk_t :=
  match e with
  | store_does i (store_sends c) => if decide (i = fid) then Some c else None
  | _ => None
  end.
Definition timestamp_of (fid : nat) (e : event) : option state_timestamp_t :=
  match e with
  | store_does i (store_returns t) => if decide (i = fid) then Some t else None
  | _ => None
  end.

(** The chunks the store of activation [fid] produced during [evs], in order,
    and the timestamps it returned. *)
Definition produced (fid : nat) (evs : list event) : list backfill_chunk_t :=
  omap (chunk_of fid) evs.
Definition reached (fid : nat) (evs : list event) : list state_timestamp_t :=
  omap (timestamp_of fid) evs.




(** ** The steps as a relation *)

(** [transition e w w']: the step [e] leads from [w] to [w'].  One rule per
    path through the code; [step_transition] below shows that the rules are
    exactly the successful steps. *)
Inductive transition : event -> backfiller_t -> backfiller_t -> Prop :=
| t_backfill sid req cc ec w :
    backfill_mailbox w = true ->
    transition (deliver_backfill sid req cc ec) w (on_backfill_enter sid req cc ec w)
| t_cancel_absent sid w :
    cancel_backfill_mailbox w = true ->
    local_interruptors w !! sid = None ->
    transition (deliver_cancel_backfill sid) w w
| t_cancel_pulse sid p f w :
    cancel_backfill_mailbox w = true ->
    local_interruptors w !! sid = Some p ->
    frames w !! p = Some f ->
    state f = suspended ->
    is_pulsed (local_interruptor f) = false ->
    transition (deliver_cancel_backfill sid) w
      (with_frames w (<[p := with_local_interruptor f (Cond true)]> (frames w)))
| t_chunk fid f c w :
    frames w !! fid = Some f ->
    state f = suspended ->
    transition (store_does fid (store_sends c)) w (send_fun fid f c w)
| t_return fid f t w :
    frames w !! fid = Some f ->
    state f = suspended ->
    transition (store_does fid (store_returns t)) w
      (leave_scope fid f returned (send fid (end_message (end_cont f) t) w))
| t_interrupted fid f w :
    frames w !! fid = Some f ->
    state f = suspended ->
    interrupted w f = true ->
    transition (store_does fid (store_throws interrupted_exc_t)) w
      (leave_scope fid f returned w)
| t_escape fid f n w :
    frames w !! fid = Some f ->
    state f = suspended ->
    transition (store_does fid (store_throws (store_exc n))) w
      (leave_scope fid f (propagated (store_exc n)) w)
| t_destruct w :
    dying w = None ->
    transition destructor w (with_dying w (Some destruction_order))
| t_destroy m rest w w' :
    dying w = Some (m :: rest) ->
    destroy_member m rest w = Ok w' ->
    transition destructor w w'.

(** ** Invariants of the reachable states *)

(** The number of activations that are inside their store call. *)
Fixpoint suspended_count (fs : list frame) : nat :=
  match fs with
  | [] => 0
  | f :: fs' =>
      match state f with
      | suspended => S (suspended_count fs')
      | finished _ => suspended_count fs'
      end
  end.

(** Every entry of the map points to the signal of a suspended activation of
    that session. *)
Definition registry_sound (w : backfiller_t) : Prop :=
  forall sid p, local_interruptors w !! sid = Some p ->
    exists f, frames w !! p = Some f /\ state f = suspended /\ session_id f = sid.


(** The locks are those of the two callbacks and of the suspended
    activations. *)
Definition locks_counted (w : backfiller_t) : Prop :=
  lock_count (drainer w) =
    Nat.b2n (backfill_mailbox w) + Nat.b2n (cancel_backfill_mailbox w)
    + suspended_count (frames w).

(** Where the destructor stands. *)
Definition teardown_consistent (w : backfiller_t) : Prop :=
  match dying w with
  | None =>
      advertisement w = true /\ backfill_mailbox w = true /\
      cancel_backfill_mailbox w = true /\
      is_pulsed (drain_signal (drainer w)) = false
  | Some rest =>
      (exists gone, gone ++ rest = destruction_order) /\
      advertisement w = bool_decide (m_advertisement ∈ rest) /\
      cancel_backfill_mailbox w = bool_decide (m_cancel_backfill_mailbox ∈ rest) /\
      backfill_mailbox w = bool_decide (m_backfill_mailbox ∈ rest) /\
      (is_pulsed (drain_signal (drainer w)) = true -> m_local_interruptors ∉ rest) /\
      (m_drainer ∉ rest ->
         is_pulsed (drain_signal (drainer w)) = true /\ lock_count (drainer w) = 0)
  end.

(** No message carries the label of an activation that does not exist. *)
Definition labels_bounded (w : backfiller_t) : Prop :=
  forall fid, length (frames w) <= fid -> sent_by fid w = [].

Definition invariant (w : backfiller_t) : Prop :=
  registry_sound w /\ locks_counted w /\ teardown_consistent w /\ labels_bounded w.

(** What activation [fid] with continuation addresses as in [f] has sent once
    its store did what [evs] says. *)
Definition expected (f : frame) (fid : nat) (evs : list event) : list message :=
  map (chunk_message (chunk_cont f)) (produced fid evs)
  ++ map (end_message (end_cont f)) (reached fid evs).

(** The messages of activation [fid] are accounted for by what its store did
    during [evs]; a store that has not returned has reached no timestamp, and
    no store returns twice. *)
Definition accounted (fid : nat) (evs : list event) (w : backfiller_t) : Prop :=
  match frames w !! fid with
  | Some f =>
      sent_by fid w = expected f fid evs /\
      match state f with
      | suspended => reached fid evs = []
      | finished _ => length (reached fid evs) <= 1
      end
  | None => produced fid evs = [] /\ reached fid evs = []
  end.

End Backfiller.

(** ** A concrete protocol, for examples *)

(** Regions, requests and chunks are numbers. *)
Definition nat_protocol : protocol_t := Protocol nat _ nat nat.

(** A branch history that is a function, with [branch_find] its application. *)
Definition branches (b : branch_id_t) : branch_metadata_t (protocol := nat_protocol) :=
  @Branch nat_protocol 3 5%N.
Definition find_in (bh : branch_id_t -> branch_metadata_t (protocol := nat_protocol))
    (b : branch_id_t) := bh b.

(** A store for region 3 at timestamp 5, on branch 1. *)
Definition backfiller0 : backfiller_t (protocol := nat_protocol) :=
  initialised branches (@Store nat_protocol 3 5%N) 1.

(** One session, two chunks, then the store returns timestamp 9. *)
Definition run_to_completion : list (event (protocol := nat_protocol)) :=
  [ @deliver_backfill nat_protocol 7 0 10 11;
    store_does 0 (@store_sends nat_protocol 4);
    store_does 0 (@store_sends nat_protocol 5);
    store_does 0 (store_returns 9%N) ].

(** One session, one chunk, then the backfillee cancels. *)
Definition run_to_cancel : list (event (protocol := nat_protocol)) :=
  [ @deliver_backfill nat_protocol 7 0 10 11;
    store_does 0 (@store_sends nat_protocol 4);
    deliver_cancel_backfill 7 ].



(** * Properties *)

Section Properties.
Context {protocol : protocol_t} {branch_history_t : Type}.
Implicit Types (w : backfiller_t (branch_history_t := branch_history_t)).
Implicit Types (f : frame) (e : event) (evs : list event).

(** ** The step function and the step relation agree *)

Lemma on_cancel_backfill_returns sid w w' :
  on_cancel_backfill sid w = Returns w' <->
  (local_interruptors w !! sid = None /\ w' = w) \/
  (exists p f, local_interruptors w !! sid = Some p /\ frames w !! p = Some f /\
     state f = suspended /\ is_pulsed (local_interruptor f) = false /\
     w' = with_frames w (<[p := with_local_interruptor f (Cond true)]> (frames w))).
Proof.
  unfold on_cancel_backfill, pulse. split.
  - destruct (local_interruptors w !! sid) as [p|] eqn:Hp; [|intros [= <-]; by left].
    destruct (frames w !! p) as [f|] eqn:Hf; [|done].
    destruct (state f) eqn:Hs; [|done].
    destruct (is_pulsed (local_interruptor f)) eqn:Hc; [done|].
    cbn. intros [= <-]. right. by exists p, f.
  - intros [[-> ->]|(p & f & -> & -> & -> & -> & ->)]; done.
Qed.

Lemma on_cancel_backfill_never_throws sid w x :
  on_cancel_backfill sid w <> Throws x.
Proof.
  unfold on_cancel_backfill, pulse.
  repeat case_match; cbn; congruence.
Qed.

Lemma step_transition e w w' : step e w = Ok w' <-> transition e w w'.
Proof.
  split.
  - destruct e as [sid req cc ec|sid|fid a|]; cbn.
    + destruct (backfill_mailbox w) eqn:Hb; [|done].
      intros [= <-]. by constructor.
    + destruct (cancel_backfill_mailbox w) eqn:Hb; [|done].
      destruct (on_cancel_backfill sid w) as [w1| |] eqn:Hc; [|done..].
      intros [= <-]. apply on_cancel_backfill_returns in Hc
        as [[? ->]|(p & f & ? & ? & ? & ? & ->)]; econstructor; eauto.
    + unfold store_step.
      destruct (frames w !! fid) as [f|] eqn:Hf; [|done].
      destruct (state f) eqn:Hs; [|done].
      destruct a as [c|t|[|n]]; unfold finish, on_backfill_resume; cbn.
      * intros [= <-]. by constructor.
      * intros [= <-]. by constructor.
      * destruct (interrupted w f) eqn:Hi; cbn; [|done].
        intros [= <-]. by constructor.
      * intros [= <-]. by constructor.
    + destruct (dying w) as [[|m rest]|] eqn:Hd; [done| |].
      * intros. by econstructor.
      * intros [= <-]. by constructor.
  - destruct 1; cbn; unfold store_step, finish, on_backfill_resume;
      repeat match goal with H : _ = _ |- _ => rewrite H end; cbn; try done.
    + by rewrite (proj2 (on_cancel_backfill_returns sid w w) (or_introl (conj H0 eq_refl))).
    + erewrite (proj2 (on_cancel_backfill_returns sid w _)); [done|].
      right. by exists p, f.
Qed.

(** ** Bookkeeping lemmas *)

Ltac unfold_state :=
  unfold on_backfill_enter, leave_scope, send_fun in *;
  unfold lock_drop, lock_copy, sentry_leave, sentry_enter, send in *;
  unfold with_cluster, with_drainer,
    with_local_interruptors, with_backfill_mailbox,
    with_cancel_backfill_mailbox, with_advertisement, with_frames,
    with_dying, with_state, with_local_interruptor in *;
  cbv zeta in *;
  cbn [cluster branch_history store store_branch drainer local_interruptors
       backfill_mailbox cancel_backfill_mailbox advertisement frames dying
       session_id request chunk_cont end_cont local_interruptor state
       drain_signal lock_count is_pulsed] in *.

Lemma suspended_count_app (fs : list frame) f :
  suspended_count (fs ++ [f]) =
  suspended_count fs + match state f with suspended => 1 | finished _ => 0 end.
Proof.
  induction fs as [|g fs IH]; cbn.
  - destruct (state f); lia.
  - rewrite IH. destruct (state g); lia.
Qed.

Lemma suspended_count_same (fs : list frame) i f g :
  fs !! i = Some f -> state g = state f ->
  suspended_count (<[i := g]> fs) = suspended_count fs.
Proof.
  revert i. induction fs as [|h fs IH]; intros [|i] Hi Hg; simplify_eq/=.
  - by rewrite Hg.
  - by rewrite (IH _ Hi Hg).
Qed.

Lemma suspended_count_finish (fs : list frame) i f g how :
  fs !! i = Some f -> state f = suspended -> state g = finished how ->
  suspended_count fs = S (suspended_count (<[i := g]> fs)).
Proof.
  revert i. induction fs as [|h fs IH]; intros [|i] Hi Hf Hg; simplify_eq/=.
  - by rewrite Hf, Hg.
  - rewrite (IH _ Hi Hf Hg). by destruct (state h).
Qed.


Lemma sent_by_snoc fid w i m :
  sent_by fid (send i m w) =
  sent_by fid w ++ (if decide (i = fid) then [m] else []).
Proof.
  unfold sent_by, send, with_cluster; cbn.
  rewrite omap_app. cbn. by destruct (decide (i = fid)).
Qed.

Lemma destroy_member_keeps m rest w w' :
  destroy_member m rest w = Ok w' ->
  frames w' = frames w /\ local_interruptors w' = local_interruptors w /\
  cluster w' = cluster w.
Proof.
  destruct m; cbn; repeat case_match; intros [= <-]; done.
Qed.

(** ** The invariants hold in every reachable state *)

Lemma transition_registry_sound e w w' :
  transition e w w' -> registry_sound w -> registry_sound w'.
Proof.
  intros Ht Hs.
  assert (Hleave : forall fid f how w1,
    frames w1 = frames w -> local_interruptors w1 = local_interruptors w ->
    frames w !! fid = Some f ->
    registry_sound (leave_scope fid f how w1)).
  { intros fid f how w1 Hfr Hli Hf sid p. unfold_state. rewrite Hfr, Hli.
    intros [Hne Hl]%lookup_delete_Some.
    destruct (Hs _ _ Hl) as (g & Hg & Hst & Hsid).
    exists g. split; [|done].
    rewrite list_lookup_insert_ne; [done|]. intros ->. congruence. }
  destruct Ht; try done.
  - intros s p. unfold_state. intros Hl.
    destruct (decide (sid = s)) as [->|Hne].
    + rewrite lookup_insert_eq in Hl. injection Hl as <-.
      eexists. split; [by apply list_lookup_middle|done].
    + rewrite lookup_insert_ne in Hl by done.
      destruct (Hs _ _ Hl) as (g & Hg & ?). exists g.
      split; [by apply lookup_app_l_Some|done].
  - intros s q Hl. unfold_state.
    destruct (Hs _ _ Hl) as (g & Hg & Hst & Hsid).
    destruct (decide (q = p)) as [->|Hne].
    + rewrite list_lookup_insert_eq by (by eapply lookup_lt_Some).
      eexists. split; [done|]. cbn. by simplify_eq.
    + rewrite list_lookup_insert_ne by done. by exists g.
  - by apply Hleave.
  - by apply Hleave.
  - by apply Hleave.
  - apply destroy_member_keeps in H0 as (Hfr & Hli & _).
    intros s p. rewrite Hfr, Hli. apply Hs.
Qed.

Lemma transition_labels_bounded e w w' :
  transition e w w' -> labels_bounded w -> labels_bounded w'.
Proof.
  intros Ht Hb. unfold labels_bounded, sent_by in *.
  destruct Ht; unfold_state; try done.
  - intros fid. rewrite length_app. cbn. intros ?. apply Hb. lia.
  - intros fid. rewrite length_insert. apply Hb.
  - intros i Hi. rewrite omap_app. cbn.
    apply lookup_lt_Some in H. rewrite decide_False by lia.
    rewrite (Hb i Hi). done.
  - intros i. rewrite length_insert. intros Hi. rewrite omap_app. cbn.
    apply lookup_lt_Some in H. rewrite decide_False by lia.
    rewrite (Hb i Hi). done.
  - intros i. rewrite length_insert. apply Hb.
  - intros i. rewrite length_insert. apply Hb.
  - apply destroy_member_keeps in H0 as (Hfr & _ & Hcl).
    intros i. rewrite Hfr, Hcl. apply Hb.
Qed.

Ltac enumerate_teardown H :=
  let gone := fresh "gone" in
  destruct H as [gone H];
  unfold destruction_order, members in H; cbn in H;
  repeat (destruct gone as [|? gone]; simplify_eq/=).

Lemma transition_locks_counted e w w' :
  transition e w w' -> teardown_consistent w -> locks_counted w -> locks_counted w'.
Proof.
  intros Ht Htd Hl. unfold locks_counted in *.
  destruct Ht; unfold_state; try done.
  - rewrite suspended_count_app. cbn. lia.
  - by rewrite (suspended_count_same _ _ f).
  - rewrite (suspended_count_finish _ fid f (with_state f (finished returned)) returned) in Hl
      by done. unfold_state. lia.
  - rewrite (suspended_count_finish _ fid f (with_state f (finished returned)) returned) in Hl
      by done. unfold_state. lia.
  - rewrite (suspended_count_finish _ fid f
      (with_state f (finished (propagated (store_exc n)))) (propagated (store_exc n))) in Hl
      by done. unfold_state. lia.
  - unfold teardown_consistent in Htd. rewrite H in Htd.
    destruct Htd as (Hex & _ & Hc & Hb & _).
    enumerate_teardown Hex; repeat case_match; simplify_eq;
      unfold_state; try done.
    + rewrite Hc in Hl. cbn in Hl. lia.
    + rewrite Hb, Hc in Hl. cbn in Hl. rewrite Hc. cbn. lia.
Qed.

Lemma past_the_drainer (rest : list member) :
  (exists gone, gone ++ rest = destruction_order) ->
  m_drainer ∉ rest ->
  (m_advertisement ∉ rest) /\ (m_cancel_backfill_mailbox ∉ rest) /\
  (m_backfill_mailbox ∉ rest).
Proof.
  intros Hex Hn. enumerate_teardown Hex;
    first [by destruct Hn; compute_done | split_and!; compute_done].
Qed.

Lemma transition_teardown_consistent e w w' :
  transition e w w' -> teardown_consistent w -> teardown_consistent w'.
Proof.
  intros Ht Htd. unfold teardown_consistent in *.
  assert (Hpred : forall n, n = 0 -> pred n = 0) by (intros; lia).
  destruct Ht; unfold_state; try done.
  - destruct (dying w) as [rest|]; [|done].
    destruct Htd as (Hex & Ha & Hc & Hb & Hp & Hd).
    split_and!; try done. intros Hn. exfalso.
    destruct (past_the_drainer _ Hex Hn) as (_ & _ & Hn').
    rewrite Hb, bool_decide_eq_true in H. done.
  - destruct (dying w) as [rest|]; [|done].
    destruct Htd as (Hex & Ha & Hc & Hb & Hp & Hd).
    split_and!; try done. intros Hn. destruct (Hd Hn). auto.
  - destruct (dying w) as [rest|]; [|done].
    destruct Htd as (Hex & Ha & Hc & Hb & Hp & Hd).
    split_and!; try done. intros Hn. destruct (Hd Hn). auto.
  - destruct (dying w) as [rest|]; [|done].
    destruct Htd as (Hex & Ha & Hc & Hb & Hp & Hd).
    split_and!; try done. intros Hn. destruct (Hd Hn). auto.
  - rewrite H in Htd. destruct Htd as (Ha & Hb & Hc & Hp).
    unfold destruction_order, members. cbn.
    split_and!; try done.
    + by exists [].
    + congruence.
    + intros Hn. destruct Hn. compute_done.

  - rewrite H in Htd. destruct Htd as (Hex & Ha & Hc & Hb & Hp & Hd).
    enumerate_teardown Hex; unfold_state;
      repeat (case_match; simplify_eq/=); unfold_state;
      try match goal with H : dying _ = _ |- _ => rewrite H end.
    all: split; [unfold destruction_order, members; cbn;
                 match goal with
                 | |- exists g, g ++ ?r = ?l =>
                     let n := eval cbv in (length l - length r) in
                     exists (take n l); reflexivity
                 end|].

    all: split_and!; try done;
      try (intros _; compute_done);
      try (intros Hn; exfalso; apply Hn; compute_done);
      try (intros Hpul; destruct (Hp Hpul); compute_done).
    all: intros _; try (split; [done|by apply Nat.eqb_eq]).
    all: destruct Hd as [Hq Hz]; [compute_done|]; split; auto.
Qed.

Lemma transition_invariant e w w' :
  transition e w w' -> invariant w -> invariant w'.
Proof.
  intros Ht (Hs & Hl & Htd & Hb). split_and!.
  - by eapply transition_registry_sound.
  - by eapply transition_locks_counted.
  - by eapply transition_teardown_consistent.
  - by eapply transition_labels_bounded.
Qed.

Lemma initialised_invariant (bh : branch_history_t) s sb :
  invariant (initialised bh s sb).
Proof.
  split_and!.
  - intros sid p. cbn. by rewrite lookup_empty.
  - done.
  - done.
  - intros fid _. done.
Qed.

Lemma run_cons e evs w w' :
  run (e :: evs) w = Ok w' <-> exists w1, step e w = Ok w1 /\ run evs w1 = Ok w'.
Proof.
  cbn. destruct (step e w) as [w1| |]; split; try done.
  - intros. by exists w1.
  - by intros (? & [= <-] & ?).
  - by intros (? & ? & ?).
  - by intros (? & ? & ?).
Qed.

Lemma run_snoc evs e w w' :
  run (evs ++ [e]) w = Ok w' <-> exists w1, run evs w = Ok w1 /\ step e w1 = Ok w'.
Proof.
  revert w. induction evs as [|e0 evs IH]; intros w.
  - cbn. split.
    + intros H. exists w. split; [done|]. by destruct (step e w).
    + intros (w1 & [= <-] & H). by rewrite H.
  - change ((e0 :: evs) ++ [e]) with (e0 :: (evs ++ [e])).
    rewrite run_cons. split.
    + intros (w1 & H1 & (w2 & H2 & H3)%IH). exists w2. split; [|done].
      apply run_cons. by exists w1.
    + intros (w2 & (w1 & H1 & H2)%run_cons & H3). exists w1. split; [done|].
      apply IH. by exists w2.
Qed.

Lemma run_invariant evs w w' :
  run evs w = Ok w' -> invariant w -> invariant w'.
Proof.
  revert w. induction evs as [|e evs IH]; intros w.
  - by intros [= <-].
  - intros (w1 & H1 & H2)%run_cons Hi. apply (IH _ H2).
    apply step_transition in H1. by eapply transition_invariant.
Qed.



(** ** What an activation sends *)

Lemma transition_finished e w w' fid f how :
  transition e w w' -> frames w !! fid = Some f -> state f = finished how ->
  frames w' !! fid = Some f /\ sent_by fid w' = sent_by fid w /\
  chunk_of fid e = None /\ timestamp_of fid e = None.
Proof.
  intros Ht Hf Hst.
  assert (Hleave : forall i g how' w1,
    frames w1 = frames w -> frames w !! i = Some g -> state g = suspended ->
    frames (leave_scope i g how' w1) !! fid = Some f /\ i <> fid).
  { intros i g how' w1 Hfr Hg Hgs. unfold_state. rewrite Hfr.
    assert (i <> fid) by (intros ->; congruence).
    by rewrite list_lookup_insert_ne. }
  destruct Ht; cbn [chunk_of timestamp_of].
  - split_and!; try done. unfold_state. by apply lookup_app_l_Some.
  - done.
  - split_and!; try done. unfold_state.
    rewrite list_lookup_insert_ne; [done|]. intros ->. congruence.
  - assert (fid0 <> fid) by (intros ->; congruence).
    unfold send_fun. rewrite sent_by_snoc, !decide_False, app_nil_r by done. done.
  - destruct (Hleave fid0 f0 returned (send fid0 (end_message (end_cont f0) t) w))
      as [Hl Hne]; try done.
    split_and!; try done; [|by rewrite decide_False].
    change (sent_by fid (send fid0 (end_message (end_cont f0) t) w) = sent_by fid w).
    by rewrite sent_by_snoc, decide_False, app_nil_r.
  - by destruct (Hleave fid0 f0 returned w) as [Hl Hne].
  - by destruct (Hleave fid0 f0 (propagated (store_exc n)) w) as [Hl Hne].
  - done.
  - apply destroy_member_keeps in H0 as (Hfr & _ & Hcl).
    unfold sent_by. by rewrite Hfr, Hcl.
Qed.

Lemma run_finished evs w w' fid f how :
  run evs w = Ok w' -> frames w !! fid = Some f -> state f = finished how ->
  frames w' !! fid = Some f /\ sent_by fid w' = sent_by fid w /\
  produced fid evs = [] /\ reached fid evs = [].
Proof.
  revert w. induction evs as [|e evs IH]; intros w.
  - by intros [= <-].
  - intros (w1 & H1 & H2)%run_cons Hf Hst.
    apply step_transition in H1.
    destruct (transition_finished _ _ _ _ _ _ H1 Hf Hst) as (Hf1 & Hs1 & Hc & Ht).
    destruct (IH _ H2 Hf1 Hst) as (? & ? & Hp & Hr).
    unfold produced, reached in *. cbn. rewrite Hc, Ht.
    split_and!; try done. congruence.
Qed.

Lemma produced_snoc fid evs e :
  produced fid (evs ++ [e]) =
  produced fid evs ++ match chunk_of fid e with Some c => [c] | None => [] end.
Proof.
  unfold produced. rewrite omap_app. cbn. by destruct (chunk_of fid e).
Qed.

Lemma reached_snoc fid evs e :
  reached fid (evs ++ [e]) =
  reached fid evs ++ match timestamp_of fid e with Some t => [t] | None => [] end.
Proof.
  unfold reached. rewrite omap_app. cbn. by destruct (timestamp_of fid e).
Qed.

Lemma accounted_snoc_silent fid evs e w w' :
  chunk_of fid e = None -> timestamp_of fid e = None ->
  sent_by fid w' = sent_by fid w ->
  (forall f, frames w !! fid = Some f ->
     exists f', frames w' !! fid = Some f' /\ chunk_cont f' = chunk_cont f /\
       end_cont f' = end_cont f /\
       (state f' = state f \/ exists how, state f = suspended /\ state f' = finished how)) ->
  (frames w !! fid = None -> sent_by fid w = [] ->
     frames w' !! fid = None \/
     exists f', frames w' !! fid = Some f' /\ state f' = suspended) ->
  labels_bounded w ->
  accounted fid evs w -> accounted fid (evs ++ [e]) w'.
Proof.
  intros Hc Ht Hs Hsome Hnone Hb. unfold accounted, expected.
  rewrite produced_snoc, reached_snoc, Hc, Ht, !app_nil_r.
  destruct (frames w !! fid) as [f|] eqn:Hf.
  - destruct (Hsome f eq_refl) as (f' & -> & -> & -> & Hst). rewrite Hs.
    intros [Hsent Hr]. split; [done|].
    destruct Hst as [->|(how & Hst & ->)]; [done|].
    rewrite Hst in Hr. rewrite Hr. cbn. lia.
  - intros [Hp Hr].
    assert (sent_by fid w = []) as Hnil.
    { apply Hb. by apply lookup_ge_None. }
    destruct (Hnone eq_refl Hnil) as [->|(f' & -> & ->)]; [done|].
    by rewrite Hs, Hnil, Hp, Hr.
Qed.

Lemma transition_accounted e w w' fid evs :
  invariant w -> accounted fid evs w -> transition e w w' ->
  accounted fid (evs ++ [e]) w'.
Proof.
  intros (_ & _ & _ & Hb) Ha Ht.
  destruct Ht.
  - (* a new activation *)
    eapply (accounted_snoc_silent fid evs _ w); [done|done|done| | |done|done].
    + intros f Hf. exists f. unfold_state.
      split_and!; auto. by apply lookup_app_l_Some.
    + intros Hf _. unfold_state.
      destruct (decide (fid = length (frames w))) as [->|Hne].
      * right. eexists. split; [by apply list_lookup_middle|done].
      * left. apply lookup_ge_None. apply lookup_ge_None in Hf.
        rewrite length_app. cbn. lia.
  - eapply (accounted_snoc_silent fid evs _ w); [done|done|done| | |done|done].
    + intros f Hf. exists f. auto.
    + auto.
  - (* a cancel that pulses *)
    eapply (accounted_snoc_silent fid evs _ w); [done|done|done| | |done|done].
    + intros g Hg. unfold_state.
      destruct (decide (fid = p)) as [->|Hne].
      * rewrite list_lookup_insert_eq by (by eapply lookup_lt_Some).
        eexists. split; [done|]. simplify_eq. cbn. auto.
      * rewrite list_lookup_insert_ne by done. exists g. auto.
    + intros Hf _. left. unfold_state.
      apply lookup_ge_None. rewrite length_insert. by apply lookup_ge_None.
  - (* a chunk *)
    destruct (decide (fid0 = fid)) as [->|Hne].
    + unfold accounted, expected in *.
      rewrite produced_snoc, reached_snoc. cbn [chunk_of timestamp_of].
      rewrite decide_True by done. unfold send_fun.
      rewrite sent_by_snoc, decide_True by done.
      change (frames (send fid (chunk_message (chunk_cont f) c) w)) with (frames w).
      rewrite H in *. rewrite H0 in *. destruct Ha as [-> Hr].
      rewrite Hr, !app_nil_r, map_app. done.
    + eapply (accounted_snoc_silent fid evs _ w); [| |  | | |done|done].
      * cbn. by rewrite decide_False.
      * done.
      * unfold send_fun. by rewrite sent_by_snoc, decide_False, app_nil_r.
      * intros g Hg. exists g. auto.
      * auto.

  - (* the store returns *)
    destruct (decide (fid0 = fid)) as [->|Hne].
    + unfold accounted, expected in *.
      rewrite produced_snoc, reached_snoc. cbn [chunk_of timestamp_of].
      rewrite decide_True by done.
      change (sent_by fid (leave_scope fid f returned
                (send fid (end_message (end_cont f) t) w)))
        with (sent_by fid (send fid (end_message (end_cont f) t) w)).
      rewrite sent_by_snoc, decide_True by done.
      change (frames (leave_scope fid f returned
                (send fid (end_message (end_cont f) t) w)))
        with (<[fid := with_state f (finished returned)]> (frames w)).
      rewrite list_lookup_insert_eq by (by eapply lookup_lt_Some).
      rewrite H in Ha. rewrite H0 in Ha. destruct Ha as [-> Hr].
      rewrite Hr, !app_nil_r. cbn. split; [done|lia].
    + eapply (accounted_snoc_silent fid evs _ w); [| |  | | |done|done].
      * done.
      * cbn. by rewrite decide_False.
      * change (sent_by fid (send fid0 (end_message (end_cont f) t) w) = sent_by fid w).
        by rewrite sent_by_snoc, decide_False, app_nil_r.
      * intros g Hg. exists g. unfold_state.
        rewrite list_lookup_insert_ne by done. auto.
      * intros Hf _. left. unfold_state.
        apply lookup_ge_None. rewrite length_insert. by apply lookup_ge_None.
  - (* the store is interrupted *)
    eapply (accounted_snoc_silent fid evs _ w); [done|done|done| | |done|done].
    + intros g Hg. unfold_state.
      destruct (decide (fid = fid0)) as [->|Hne].
      * rewrite list_lookup_insert_eq by (by eapply lookup_lt_Some).
        eexists. split; [done|]. simplify_eq. cbn. split_and!; eauto.
      * rewrite list_lookup_insert_ne by done. exists g. auto.
    + intros Hf _. left. unfold_state.
      apply lookup_ge_None. rewrite length_insert. by apply lookup_ge_None.
  - (* the store throws something else *)
    eapply (accounted_snoc_silent fid evs _ w); [done|done|done| | |done|done].
    + intros g Hg. unfold_state.
      destruct (decide (fid = fid0)) as [->|Hne].
      * rewrite list_lookup_insert_eq by (by eapply lookup_lt_Some).
        eexists. split; [done|]. simplify_eq. cbn. split_and!; eauto.
      * rewrite list_lookup_insert_ne by done. exists g. auto.
    + intros Hf _. left. unfold_state.
      apply lookup_ge_None. rewrite length_insert. by apply lookup_ge_None.
  - eapply (accounted_snoc_silent fid evs _ w); [done|done|done| | |done|done].
    + intros g Hg. exists g. auto.
    + auto.
  - apply destroy_member_keeps in H0 as (Hfr & _ & Hcl).
    eapply (accounted_snoc_silent fid evs _ w); [done|done| | | |done|done].
    + unfold sent_by. by rewrite Hcl.
    + rewrite Hfr. intros g Hg. exists g. auto.
    + rewrite Hfr. auto.
Qed.

Lemma run_accounted (bh : branch_history_t) s sb evs w fid :
  run evs (initialised bh s sb) = Ok w -> accounted fid evs w.
Proof.
  revert w. induction evs as [|e evs IH] using rev_ind; intros w.
  - intros [= <-]. done.
  - intros (w1 & H1 & H2)%run_snoc.
    eapply transition_accounted; [| |by apply step_transition].
    + eapply run_invariant; [done|]. apply initialised_invariant.
    + by apply IH.
Qed.





(** ** The claims *)


(** C3.  In every run, the messages an activation of [on_backfill] has sent
    are, in this order: the chunks its store produced, each one as it is and to
    [chunk_cont], in the order of their production, and then the completion
    message, if the store returned.  A chunk is sent in the very step in which
    the store hands it to [send_fun]. *)
Theorem chunks_forwarded_in_order (bh : branch_history_t) s sb evs w fid f :
  run evs (initialised bh s sb) = Ok w ->
  frames w !! fid = Some f ->
  sent_by fid w =
    map (chunk_message (chunk_cont f)) (produced fid evs)
    ++ map (end_message (end_cont f)) (reached fid evs) /\
  (state f = suspended ->
   forall c, exists w', step (store_does fid (store_sends c)) w = Ok w' /\
     cluster w' = cluster w ++ [(fid, chunk_message (chunk_cont f) c)]).
Proof.
  intros Hr Hf. split.
  - pose proof (run_accounted _ _ _ _ _ fid Hr) as Ha.
    unfold accounted in Ha. rewrite Hf in Ha. by destruct Ha.
  - intros Hst c. exists (send_fun fid f c w). split; [|done].
    apply step_transition. by constructor.
Qed.



(** C5.  The constructor returns only if the region of the store is the region
    of the branch found under [store_branch] and the timestamp of the store is
    not before that branch's [initial_timestamp]; when one of the two fails,
    the constructor stops the process in its own body, and no backfiller
    results. *)
Theorem backfiller_new_checks_the_store
    (branch_find : branch_history_t -> branch_id_t -> branch_metadata_t)
    (bh : branch_history_t) (s : ready_store_t) (sb : branch_id_t) :
  (forall w, backfiller_new branch_find bh s sb = Returns w <->
     w = initialised bh s sb /\
     get_region s = region (branch_find bh sb) /\
     (initial_timestamp (branch_find bh sb) <= get_timestamp s)%N) /\
  (backfiller_new branch_find bh s sb = Aborts <->
     get_region s <> region (branch_find bh sb) \/
     (get_timestamp s < initial_timestamp (branch_find bh sb))%N) /\
  (forall x, backfiller_new branch_find bh s sb <> Throws x).
Proof.
  unfold backfiller_new, rassert. cbn.
  destruct (bool_decide_reflect (get_region s = region (branch_find bh sb)))
    as [Hreg|Hreg]; cbn.
  - destruct (N.leb_spec (initial_timestamp (branch_find bh sb)) (get_timestamp s))
      as [Hle|Hlt]; cbn.
    + split_and!; [|split; [done|intros [?|?]; [done|lia]]|done].
      intros w. split; [by intros [= <-]|by intros (-> & _)].
    + split_and!; [|split; [by right|done]|done].
      intros w. split; [done|]. intros (_ & _ & ?). lia.
  - split_and!; [|split; [by left|done]|done].
    intros w. split; [done|]. by intros (_ & ? & _).
Qed.

(** C7.  A cancel for a session id that is not in the map returns normally and
    leaves the whole state as it was: no signal is pulsed, the map is the
    same, no message is sent. *)
Theorem cancel_of_absent_session_is_noop sid w :
  local_interruptors w !! sid = None ->
  on_cancel_backfill sid w = Returns w /\
  (cancel_backfill_mailbox w = true ->
   step (deliver_cancel_backfill sid) w = Ok w).
Proof.
  intros Hn. split.
  - unfold on_cancel_backfill. by rewrite Hn.
  - intros Hb. apply step_transition. by constructor.
Qed.


(** C9, as the code has it.  An exception of the store other than the
    interruption is not caught by [on_backfill]: the body of the handler ends
    with that exception, which passes on to the caller.  In the step, the
    activation is left by the exception and no message is sent. *)
Theorem store_exception_propagates fid f n w :
  on_backfill_resume fid f (Throws (store_exc n)) w = Throws (store_exc n) /\
  (frames w !! fid = Some f -> state f = suspended ->
   exists w', step (store_does fid (store_throws (store_exc n))) w = Ok w' /\
     frames w' !! fid = Some (with_state f (finished (propagated (store_exc n)))) /\
     cluster w' = cluster w).
Proof.
  split; [done|]. intros Hf Hst.
  exists (leave_scope fid f (propagated (store_exc n)) w). split_and!.
  - apply step_transition. by constructor.
  - unfold_state. by apply list_lookup_insert_eq, (lookup_lt_Some _ _ f).
  - done.
Qed.

Lemma past_the_map (rest : list member) :
  (exists gone, gone ++ rest = destruction_order) ->
  m_local_interruptors ∉ rest ->
  (m_advertisement ∉ rest) /\ (m_cancel_backfill_mailbox ∉ rest) /\
  (m_backfill_mailbox ∉ rest).
Proof.
  intros Hex Hn. enumerate_teardown Hex;
    first [by destruct Hn; compute_done | split_and!; compute_done].
Qed.


Lemma suspended_count_pos (fs : list frame) :
  suspended_count fs <> 0 <->
  exists i f, fs !! i = Some f /\ state f = suspended.
Proof.
  induction fs as [|h fs IH]; cbn.
  - split; [done|]. intros (i & f & Hf & _). by rewrite lookup_nil in Hf.
  - destruct (state h) eqn:Hh.
    + split; [|done]. intros _. by exists 0, h.
    + rewrite IH. split.
      * intros (i & f & Hf & Hst). by exists (S i), f.
      * intros ([|i] & f & Hf & Hst); simplify_eq/=; [congruence|].
        by exists i, f.
Qed.


(** ** Further properties of the handlers *)

(** In every reachable state, [on_cancel_backfill] for a registered session
    goes through a pointer to a live signal, the [local_interruptor] of the one
    suspended activation of that session, and no other session id is mapped to
    that signal.  If the signal is not pulsed yet, the handler returns, the
    combined interrupt of that activation is pulsed afterwards, and nothing
    else has changed: every other activation, the map, the drainer and the
    messages sent are as before.  If it is pulsed already, the handler pulses
    it again and the process stops. *)
Theorem cancel_interrupts_its_session_only
    (bh : branch_history_t) s sb evs w sid p :
  run evs (initialised bh s sb) = Ok w ->
  local_interruptors w !! sid = Some p ->
  exists f, frames w !! p = Some f /\ state f = suspended /\ session_id f = sid /\
    (forall sid', local_interruptors w !! sid' = Some p -> sid' = sid) /\
    if is_pulsed (local_interruptor f)
    then on_cancel_backfill sid w = Aborts
    else exists w', on_cancel_backfill sid w = Returns w' /\
           frames w' !! p = Some (with_local_interruptor f (Cond true)) /\
           interrupted w' (with_local_interruptor f (Cond true)) = true /\
           (forall q, q <> p -> frames w' !! q = frames w !! q) /\
           cluster w' = cluster w /\
           local_interruptors w' = local_interruptors w /\
           drainer w' = drainer w.
Proof.
  intros Hr Hp.
  destruct (run_invariant _ _ _ Hr (initialised_invariant _ _ _)) as (Hs & _).
  destruct (Hs _ _ Hp) as (f & Hf & Hst & Hsid).
  exists f. split_and!; try done.
  - intros sid' Hp'. destruct (Hs _ _ Hp') as (g & Hg & _ & <-). congruence.
  - unfold on_cancel_backfill, pulse. rewrite Hp, Hf, Hst.
    destruct (is_pulsed (local_interruptor f)) eqn:Hc; [done|]. cbn.
    eexists. split; [done|]. unfold_state. split_and!; try done.
    + by apply list_lookup_insert_eq, (lookup_lt_Some _ _ f).
    + intros q Hq. by apply list_lookup_insert_ne.
Qed.

(** In every reachable state, a cancel for a session id of which no activation
    is inside [on_backfill] (the session is over, or never began) returns
    without changing anything. *)
Theorem cancel_after_exit_is_noop (bh : branch_history_t) s sb evs w sid :
  run evs (initialised bh s sb) = Ok w ->
  (forall fid f, frames w !! fid = Some f -> session_id f = sid ->
     state f <> suspended) ->
  on_cancel_backfill sid w = Returns w /\
  (cancel_backfill_mailbox w = true ->
   run (evs ++ [deliver_cancel_backfill sid]) (initialised bh s sb) = Ok w).
Proof.
  intros Hr Hno.
  destruct (run_invariant _ _ _ Hr (initialised_invariant _ _ _)) as (Hs & _).
  assert (local_interruptors w !! sid = None) as Hn.
  { destruct (local_interruptors w !! sid) as [p|] eqn:Hp; [|done].
    destruct (Hs _ _ Hp) as (f & Hf & Hst & Hsid). by destruct (Hno _ _ Hf Hsid). }
  split.
  - unfold on_cancel_backfill. by rewrite Hn.
  - intros Hb. apply run_snoc. exists w. split; [done|].
    apply step_transition. by constructor.
Qed.



Lemma destroy_member_keeps_signal m rest w w' :
  destroy_member m rest w = Ok w' ->
  is_pulsed (drain_signal (drainer w)) = true ->
  is_pulsed (drain_signal (drainer w')) = true.
Proof.
  destruct m; cbn; repeat case_match; intros [= <-]; done.
Qed.

Lemma transition_frames_length e w w' :
  transition e w w' -> length (frames w) <= length (frames w').
Proof.
  destruct 1; unfold_state; rewrite ?length_app, ?length_insert; try lia.
  apply destroy_member_keeps in H0 as (-> & _). lia.
Qed.

Lemma transition_keeps_interrupt e w w' fid f f' :
  transition e w w' ->
  frames w !! fid = Some f -> interrupted w f = true ->
  frames w' !! fid = Some f' -> state f' = suspended ->
  interrupted w' f' = true.
Proof.
  intros Ht Hf Hi.
  assert (Hleave : forall i g how w1,
    frames w1 = frames w -> drainer w1 = drainer w -> frames w !! i = Some g ->
    frames (leave_scope i g how w1) !! fid = Some f' -> state f' = suspended ->
    interrupted (leave_scope i g how w1) f' = true).
  { intros i g how w1 Hfr Hdr Hg. unfold interrupted. unfold_state.
    rewrite Hfr, Hdr. destruct (decide (i = fid)) as [->|Hne].
    - rewrite list_lookup_insert_eq by (by eapply lookup_lt_Some).
      intros [= <-]. done.
    - rewrite list_lookup_insert_ne by done. intros Hf' _. by simplify_eq. }
  destruct Ht; unfold interrupted in *.
  - unfold_state. intros Hf' _.
    rewrite (lookup_app_l_Some _ _ _ _ Hf) in Hf'. by simplify_eq.
  - intros Hf' _. by simplify_eq.
  - unfold_state. destruct (decide (p = fid)) as [->|Hne].
    + rewrite list_lookup_insert_eq by (by eapply lookup_lt_Some).
      intros [= <-] _. done.
    + rewrite list_lookup_insert_ne by done. intros Hf' _. by simplify_eq.
  - unfold_state. intros Hf' _. by simplify_eq.
  - by apply Hleave.
  - by apply Hleave.
  - by apply Hleave.
  - unfold_state. intros Hf' _. by simplify_eq.
  - pose proof (destroy_member_keeps_signal _ _ _ _ H0) as Hsig.
    apply destroy_member_keeps in H0 as (Hfr & _). rewrite Hfr.
    intros Hf' _. simplify_eq.
    apply orb_true_iff in Hi as [->|Hd]; [done|].
    rewrite (Hsig Hd). apply orb_true_r.
Qed.

(** The interrupt of an activation is never taken back: once the combined
    interrupt of an activation is pulsed (by a cancel for its session or by
    the drain signal), it is pulsed in every later state in which the
    activation is still inside its store call. *)
Theorem interrupt_is_permanent evs w w' fid f f' :
  run evs w = Ok w' ->
  frames w !! fid = Some f -> interrupted w f = true ->
  frames w' !! fid = Some f' -> state f' = suspended ->
  interrupted w' f' = true.
Proof.
  revert w f. induction evs as [|e evs IH]; intros w f.
  - intros [= <-] Hf Hi Hf' _. by simplify_eq.
  - intros (w1 & H1 & H2)%run_cons Hf Hi Hf' Hst'.
    apply step_transition in H1.
    assert (is_Some (frames w1 !! fid)) as [f1 Hf1].
    { apply lookup_lt_is_Some. apply lookup_lt_Some in Hf.
      pose proof (transition_frames_length _ _ _ H1). lia. }
    destruct (state f1) as [|how] eqn:Hst1.
    + apply (IH w1 f1); try done.
      by apply (transition_keeps_interrupt _ _ _ _ _ _ H1 Hf Hi).
    + destruct (run_finished _ _ _ _ _ _ H2 Hf1 Hst1) as (Hf1' & _).
      simplify_eq. congruence.
Qed.



Lemma run_app evs1 evs2 w w' :
  run (evs1 ++ evs2) w = Ok w' <->
  exists w1, run evs1 w = Ok w1 /\ run evs2 w1 = Ok w'.
Proof.
  revert w. induction evs1 as [|e evs1 IH]; intros w.
  - cbn. split; [intros; by exists w|by intros (? & [= <-] & ?)].
  - change ((e :: evs1) ++ evs2) with (e :: (evs1 ++ evs2)).
    rewrite run_cons. split.
    + intros (w0 & H0 & (w1 & H1 & H2)%IH). exists w1. split; [|done].
      apply run_cons. by exists w0.
    + intros (w1 & (w0 & H0 & H1)%run_cons & H2). exists w0. split; [done|].
      apply IH. by exists w1.
Qed.

(** No session begins during the drain.  The mailboxes are destroyed before the
    drainer, so from every reachable state in which the drain signal is pulsed
    no start-backfill and no cancel-backfill message is delivered any more, and
    in every continuation the activations are the ones that existed when the
    signal was pulsed. *)
Theorem no_session_starts_during_the_drain
    (bh : branch_history_t) s sb evs w evs' w' :
  run evs (initialised bh s sb) = Ok w ->
  is_pulsed (drain_signal (drainer w)) = true ->
  run evs' w = Ok w' ->
  length (frames w') = length (frames w) /\
  is_pulsed (drain_signal (drainer w')) = true /\
  (forall sid req cc ec, step (deliver_backfill sid req cc ec) w' = Disabled) /\
  (forall sid, step (deliver_cancel_backfill sid) w' = Disabled).
Proof.
  intros Hr Hp Hr'.
  assert (Hclosed : forall v, (exists es, run es (initialised bh s sb) = Ok v) ->
    is_pulsed (drain_signal (drainer v)) = true ->
    backfill_mailbox v = false /\ cancel_backfill_mailbox v = false).
  { intros v [es Hes] Hpv.
    destruct (run_invariant _ _ _ Hes (initialised_invariant _ _ _))
      as (_ & _ & Htd & _).
    unfold teardown_consistent in Htd.
    destruct (dying v) as [rest|].
    - destruct Htd as (Hex & _ & Hc & Hb & Hpm & _).
      destruct (past_the_map _ Hex (Hpm Hpv)) as (_ & Hn2 & Hn3).
      by rewrite Hc, Hb, !bool_decide_eq_false.
    - destruct Htd as (_ & _ & _ & Hq). congruence. }
  assert (Hgen : length (frames w') = length (frames w) /\
                 is_pulsed (drain_signal (drainer w')) = true).
  { revert evs w Hr Hp Hr'. induction evs' as [|e evs' IH]; intros evs w Hr Hp.
    - by intros [= <-].
    - intros (w1 & H1 & H2)%run_cons.
      assert (run (evs ++ [e]) (initialised bh s sb) = Ok w1) as Hr1.
      { apply run_snoc. by exists w. }
      destruct (Hclosed w (ex_intro _ evs Hr) Hp) as [Hb Hc].
      apply step_transition in H1.
      assert (length (frames w1) = length (frames w) /\
              is_pulsed (drain_signal (drainer w1)) = true) as [Hlen Hp1].
      { destruct H1; unfold_state; rewrite ?length_insert; try done; try congruence.
        split; [|by eapply destroy_member_keeps_signal].
        by apply destroy_member_keeps in H0 as (-> & _). }
      destruct (IH (evs ++ [e]) w1 Hr1 Hp1 H2) as [Hl' Hp'].
      split; [congruence|done]. }
  destruct Hgen as [Hlen Hp'].
  destruct (Hclosed w') as [Hb Hc]; [|done|].
  { exists (evs ++ evs'). apply run_app. by exists w. }
  split_and!; try done.
  - intros. cbn. by rewrite Hb.
  - intros. cbn. by rewrite Hc.
Qed.



(** The backfiller sends nothing of its own accord: every message that was
    ever sent was sent by an activation of [on_backfill], and it is either a
    chunk that the store of that activation produced, sent to the [chunk_cont]
    of that activation, or the timestamp that store returned, sent to its
    [end_cont].  Neither [on_cancel_backfill] nor the destructor sends. *)
Theorem every_message_belongs_to_a_session
    (bh : branch_history_t) s sb evs w fid m :
  run evs (initialised bh s sb) = Ok w ->
  (fid, m) ∈ cluster w ->
  exists f, frames w !! fid = Some f /\
    ((exists c, m = chunk_message (chunk_cont f) c /\ c ∈ produced fid evs) \/
     (exists t, m = end_message (end_cont f) t /\ t ∈ reached fid evs)).
Proof.
  intros Hr Hin.
  assert (m ∈ sent_by fid w) as Hm.
  { unfold sent_by. apply list_elem_of_omap. exists (fid, m).
    split; [done|]. cbn. by rewrite decide_True. }
  pose proof (run_accounted _ _ _ _ _ fid Hr) as Ha. unfold accounted in Ha.
  destruct (frames w !! fid) as [f|] eqn:Hf.
  - exists f. split; [done|]. destruct Ha as [Hs _].
    rewrite Hs in Hm. unfold expected in Hm.
    apply elem_of_app in Hm as [Hm|Hm];
      apply list_elem_of_In, in_map_iff in Hm as (x & <- & Hx%list_elem_of_In);
      [left|right]; by exists x.
  - destruct (run_invariant _ _ _ Hr (initialised_invariant _ _ _))
      as (_ & _ & _ & Hb).
    rewrite Hb in Hm by (by apply lookup_ge_None). by apply elem_of_nil in Hm.
Qed.

(** Every activation holds one lock of the drainer from the moment it enters
    [on_backfill] until it leaves: in every reachable state the locks are those
    bound into the callbacks of the two mailboxes, as long as these exist, and
    one for each activation that is inside its store call. *)
Theorem every_activation_holds_a_lock (bh : branch_history_t) s sb evs w :
  run evs (initialised bh s sb) = Ok w ->
  lock_count (drainer w) =
    Nat.b2n (backfill_mailbox w) + Nat.b2n (cancel_backfill_mailbox w)
    + suspended_count (frames w) /\
  (forall sid req cc ec w', step (deliver_backfill sid req cc ec) w = Ok w' ->
     lock_count (drainer w') = S (lock_count (drainer w))) /\
  (forall fid a w', step (store_does fid a) w = Ok w' ->
     (forall c, a <> store_sends c) ->
     S (lock_count (drainer w')) = lock_count (drainer w)).
Proof.
  intros Hr.
  destruct (run_invariant _ _ _ Hr (initialised_invariant _ _ _))
    as (_ & Hl & _ & _).
  unfold locks_counted in Hl. split_and!.
  - done.
  - intros sid req cc ec w' Ht%step_transition. inversion Ht; subst. done.
  - intros fid a w' Ht%step_transition Ha.
    assert (Hpos : forall f, frames w !! fid = Some f -> state f = suspended ->
      S (pred (lock_count (drainer w))) = lock_count (drainer w)).
    { intros f Hf Hst.
      assert (suspended_count (frames w) <> 0) as Hne.
      { apply suspended_count_pos. by exists fid, f. }
      lia. }
    inversion Ht; subst; unfold_state; [by destruct (Ha c)|eauto..].
Qed.

End Properties.

(** * The claims on concrete runs *)

#[local] Existing Instance nat_protocol.

Example backfiller_new_accepts :
  backfiller_new find_in branches (@Store nat_protocol 3 5%N) 1 = Returns backfiller0.
Proof. reflexivity. Qed.

Example backfiller_new_rejects_region :
  backfiller_new find_in branches (@Store nat_protocol 4 5%N) 1 = Aborts.
Proof. reflexivity. Qed.

Example backfiller_new_rejects_timestamp :
  backfiller_new find_in branches (@Store nat_protocol 3 4%N) 1 = Aborts.
Proof. reflexivity. Qed.


Lemma chunks_forwarded_in_order_witness :
  exists w, run run_to_completion backfiller0 = Ok w /\
    sent_by 0 w = [chunk_message 10 4; chunk_message 10 5; end_message 11 9%N].
Proof.
  eexists. split; [vm_compute; reflexivity|].
  refine (proj1 (chunks_forwarded_in_order branches (@Store nat_protocol 3 5%N) 1
                  run_to_completion _ 0
                  (@Frame nat_protocol 7 0 10 11 (Cond false) (finished returned)) _ _)).
  - vm_compute; reflexivity.
  - vm_compute; reflexivity.
Defined.



Lemma cancel_of_absent_session_is_noop_witness :
  on_cancel_backfill 7 backfiller0 = Returns backfiller0.
Proof.
  refine (proj1 (cancel_of_absent_session_is_noop 7 backfiller0 _)).
  vm_compute; reflexivity.
Defined.



(** C9, as stated, fails: "absorbed inside the handler" would make the body of
    [on_backfill] end normally when the store throws an exception other than
    the interruption.  It ends with that exception. *)
Lemma store_exception_is_not_absorbed :
  ~ (forall (w : backfiller_t (branch_history_t := nat -> branch_metadata_t))
       fid f n,
       frames w !! fid = Some f -> state f = suspended ->
       exists w', on_backfill_resume fid f (Throws (store_exc n)) w = Returns w').
Proof.
  intros H.
  destruct (H (@on_backfill_enter nat_protocol _ 7 0 10 11 backfiller0) 0
              (@Frame nat_protocol 7 0 10 11 (Cond false) suspended) 1)
    as [w' Hw]; [vm_compute; reflexivity|reflexivity|].
  discriminate Hw.
Qed.

(** C8, on the code: a start-backfill message for session 7 followed by two
    cancel-backfill messages for it, the store not having moved in between.
    After the first cancel the session is still registered, its activation is
    inside the store call, and its signal is pulsed; the second cancel finds
    the entry and pulses that signal again, which stops the process. *)
Lemma second_cancel_pulses_again :
  exists w f,
    run [ deliver_backfill 7 0 10 11; deliver_cancel_backfill 7 ]
      backfiller0 = Ok w /\
    local_interruptors w !! 7 = Some 0 /\
    frames w !! 0 = Some f /\ state f = suspended /\
    is_pulsed (local_interruptor f) = true /\
    on_cancel_backfill 7 w = Aborts /\
    run [ deliver_backfill 7 0 10 11; deliver_cancel_backfill 7;
          deliver_cancel_backfill 7 ] backfiller0 = Crash.
Proof.
  eexists. eexists. split; [vm_compute; reflexivity|].
  split; [vm_compute; reflexivity|]. split; [vm_compute; reflexivity|].
  split; [reflexivity|]. split; [reflexivity|].
  split; vm_compute; reflexivity.
Qed.

(** * Further properties on concrete runs *)

(** Two sessions are inside their store calls. *)
Definition run_two_in_flight : list (event (protocol := nat_protocol)) :=
  [ @deliver_backfill nat_protocol 7 0 10 11;
    @deliver_backfill nat_protocol 8 0 20 21 ].

(** The state a run of [backfiller0] ends in. *)
Definition state_after (evs : list (event (protocol := nat_protocol)))
    : backfiller_t (protocol := nat_protocol) :=
  match run evs backfiller0 with
  | Ok w => w
  | _ => backfiller0
  end.

(** One session is inside its store call; the destructor has reached the
    drainer and pulsed the drain signal. *)
Definition run_into_drain : list (event (protocol := nat_protocol)) :=
  [ @deliver_backfill nat_protocol 7 0 10 11;
    destructor; destructor; destructor; destructor; destructor; destructor ].

Lemma cancel_interrupts_its_session_only_witness :
  exists w, run run_two_in_flight backfiller0 = Ok w /\
    local_interruptors w !! 7 = Some 0 /\
    exists f, frames w !! 0 = Some f /\ state f = suspended /\ session_id f = 7 /\
      (forall sid', local_interruptors w !! sid' = Some 0 -> sid' = 7) /\
      if is_pulsed (local_interruptor f)
      then on_cancel_backfill 7 w = Aborts
      else exists w', on_cancel_backfill 7 w = Returns w' /\
             frames w' !! 0 = Some (with_local_interruptor f (Cond true)) /\
             interrupted w' (with_local_interruptor f (Cond true)) = true /\
             (forall q, q <> 0 -> frames w' !! q = frames w !! q) /\
             cluster w' = cluster w /\
             local_interruptors w' = local_interruptors w /\
             drainer w' = drainer w.
Proof.
  eexists. split; [vm_compute; reflexivity|].
  split; [vm_compute; reflexivity|].
  refine (cancel_interrupts_its_session_only branches (@Store nat_protocol 3 5%N) 1
            run_two_in_flight _ 7 0 _ _).
  - vm_compute; reflexivity.
  - vm_compute; reflexivity.
Defined.

Lemma cancel_after_exit_is_noop_witness :
  exists w, run run_to_completion backfiller0 = Ok w /\
    on_cancel_backfill 7 w = Returns w.
Proof.
  eexists. split; [vm_compute; reflexivity|].
  refine (proj1 (cancel_after_exit_is_noop branches (@Store nat_protocol 3 5%N) 1
                   run_to_completion _ 7 _ _)).
  - vm_compute; reflexivity.
  - intros [|fid] f Hf _ Hst.
    + injection Hf as <-. discriminate Hst.
    + destruct fid; discriminate Hf.
Defined.



Lemma interrupt_is_permanent_witness :
  let w := state_after run_to_cancel in
  let evs := [ store_does 0 (@store_sends nat_protocol 5);
               @deliver_backfill nat_protocol 8 0 20 21 ] in
  exists w' f', run evs w = Ok w' /\
    frames w' !! 0 = Some f' /\ state f' = suspended /\
    interrupted w' f' = true.
Proof.
  intros w evs. eexists. eexists.
  split; [vm_compute; reflexivity|].
  split; [vm_compute; reflexivity|]. split; [reflexivity|].
  refine (interrupt_is_permanent evs w _ 0
            (@Frame nat_protocol 7 0 10 11 (Cond true) suspended) _ _ _ _ _ _).
  - vm_compute; reflexivity.
  - vm_compute; reflexivity.
  - reflexivity.
  - vm_compute; reflexivity.
  - reflexivity.
Defined.


Lemma no_session_starts_during_the_drain_witness :
  exists w w', run run_into_drain backfiller0 = Ok w /\
    is_pulsed (drain_signal (drainer w)) = true /\
    run [ store_does 0 (store_throws interrupted_exc_t); destructor ] w = Ok w' /\
    length (frames w') = length (frames w).
Proof.
  eexists. eexists. split; [vm_compute; reflexivity|]. split; [reflexivity|].
  split; [vm_compute; reflexivity|].
  refine (proj1 (no_session_starts_during_the_drain branches
                   (@Store nat_protocol 3 5%N) 1 run_into_drain _
                   [ store_does 0 (store_throws interrupted_exc_t); destructor ] _ _ _ _)).
  - vm_compute; reflexivity.
  - reflexivity.
  - vm_compute; reflexivity.
Defined.


Lemma every_message_belongs_to_a_session_witness :
  let w := state_after run_to_completion in
  (0, end_message 11 9%N) ∈ cluster w /\
  exists f, frames w !! 0 = Some f /\
    ((exists c, end_message 11 9%N = chunk_message (chunk_cont f) c /\
        c ∈ produced 0 run_to_completion) \/
     (exists t, end_message 11 9%N = end_message (end_cont f) t /\
        t ∈ reached 0 run_to_completion)).
Proof.
  intros w.
  assert ((0, end_message 11 9%N) ∈ cluster w) as Hin.
  { vm_compute. apply list_elem_of_In. right. right. left. reflexivity. }
  split; [exact Hin|].
  refine (every_message_belongs_to_a_session branches (@Store nat_protocol 3 5%N) 1
            run_to_completion w 0 _ _ Hin).
  vm_compute; reflexivity.
Defined.

Lemma every_activation_holds_a_lock_witness :
  let w := state_after run_two_in_flight in
  lock_count (drainer w) = 4 /\
  lock_count (drainer w) =
    Nat.b2n (backfill_mailbox w) + Nat.b2n (cancel_backfill_mailbox w)
    + suspended_count (frames w).
Proof.
  intros w. split; [reflexivity|].
  refine (proj1 (every_activation_holds_a_lock branches (@Store nat_protocol 3 5%N) 1
                   run_two_in_flight w _)).
  vm_compute; reflexivity.
Defined.

(** * The performance monitors of [perfmon.hpp]

    The parts of [perfmon.hpp] that are defined in the header: the operators
    of [perfmon_counter_t] (lines 78-81), [perfmon_duration_sampler_t] (lines
    125-156) and [block_pm_duration] (lines 192-209). *)

Module Perfmon.

(** ** [int64_t] *)

Definition int64_min : Z := - 2 ^ 63.
Definition int64_max : Z := 2 ^ 63 - 1.
Definition in_int64 (z : Z) : bool :=
  ((int64_min <=? z) && (z <=? int64_max))%Z.

(** The result of a signed operation: outside the range of the type the
    behaviour is undefined, and the model stops. *)
Definition int64 (z : Z) : result Z :=
  if in_int64 z then Returns z else Aborts.

(** ** [perfmon_counter_t] (lines 69-86) *)

(** [values] has one element per thread ([MAX_THREADS] is the length of the
    list). *)
Record perfmon_counter_t := Counter {
  values : list Z;
  name : string;
}.

(** [get()] is declared on line 74 and defined outside the header.  By the
    comment of lines 66-67 ("it keeps many individual counters for
    thread-safety") and the array of line 73 it is the element of [values] of
    the calling thread; the calling thread [th] is a parameter.  A thread
    without an element is an access outside the array. *)
Definition get (th : nat) (c : perfmon_counter_t) : result Z :=
  match values c !! th with
  | Some v => Returns v
  | None => Aborts
  end.

(** Assignment through the reference that [get()] returned. *)
Definition set (th : nat) (v : Z) (c : perfmon_counter_t) : perfmon_counter_t :=
  Counter (<[th := v]> (values c)) (name c).

(** [operator++(int)], line 78: [get()++]. *)
Definition incr (th : nat) (c : perfmon_counter_t) : result perfmon_counter_t :=
  v ← get th c; v' ← int64 (v + 1); Returns (set th v' c).

(** [operator+=(int64_t num)], line 79: [get() += num]. *)
Definition add (th : nat) (num : Z) (c : perfmon_counter_t) : result perfmon_counter_t :=
  v ← get th c; v' ← int64 (v + num); Returns (set th v' c).

(** [operator--(int)], line 80: [get()--]. *)
Definition decr (th : nat) (c : perfmon_counter_t) : result perfmon_counter_t :=
  v ← get th c; v' ← int64 (v - 1); Returns (set th v' c).

(** [operator-=(int64_t num)], line 81: [get() -= num]. *)
Definition sub (th : nat) (num : Z) (c : perfmon_counter_t) : result perfmon_counter_t :=
  v ← get th c; v' ← int64 (v - num); Returns (set th v' c).

(** The "global counter" of lines 66-67: the sum over the threads. *)
Definition value (c : perfmon_counter_t) : Z := foldr Z.add 0%Z (values c).

(** Every element holds an [int64_t]. *)
Definition well_formed (c : perfmon_counter_t) : Prop :=
  Forall (fun v => in_int64 v = true) (values c).

(** ** [perfmon_duration_sampler_t] (lines 125-156) *)

(** [recent] exists unless the build defines [FAST_PERFMON]; [record] is
    declared on line 113 and defined outside the header.  [recent] is kept as
    the list of the calls of [recent.record], oldest first, each as the two
    operands of [get_ticks() - *v] (the difference and [ticks_to_secs] are not
    interpreted). *)
Record perfmon_duration_sampler_t := Sampler {
  active : perfmon_counter_t;
  total : perfmon_counter_t;
  recent : list (Z * Z);
}.

(** [begin(ticks_t *v)], lines 143-149.  [fast] says whether the build
    defines [FAST_PERFMON]; [now] is what [get_ticks()] returns; [v] is the
    content of the caller's variable, [None] while nothing was stored in it.
    The result carries the new content of that variable. *)
Definition begin (fast : bool) (th : nat) (now : Z) (v : option Z)
    (s : perfmon_duration_sampler_t)
    : result (option Z * perfmon_duration_sampler_t) :=
  a ← incr th (active s);
  t ← incr th (total s);
  Returns (if fast then v else Some now, Sampler a t (recent s)).

(** [end(ticks_t *v)], lines 150-155.  Reading a variable in which nothing was
    stored is undefined. *)
Definition end_ (fast : bool) (th : nat) (now : Z) (v : option Z)
    (s : perfmon_duration_sampler_t) : result perfmon_duration_sampler_t :=
  a ← decr th (active s);
  if fast then Returns (Sampler a (total s) (recent s))
  else match v with
       | Some start => Returns (Sampler a (total s) (recent s ++ [(now, start)]))
       | None => Aborts
       end.

(** ** [block_pm_duration] (lines 192-209) *)

(** [pm] points to the sampler, which the functions below take and give
    back. *)
Record block_pm_duration := Block {
  time : option Z;
  ended : bool;
}.

(** The constructor, lines 196-200. *)
Definition block_new (fast : bool) (th : nat) (now : Z)
    (s : perfmon_duration_sampler_t)
    : result (block_pm_duration * perfmon_duration_sampler_t) :=
  '(v, s') ← begin fast th now None s;
  Returns (Block v false, s').

(** [end()], lines 201-205. *)
Definition block_end (fast : bool) (th : nat) (now : Z) (b : block_pm_duration)
    (s : perfmon_duration_sampler_t)
    : result (block_pm_duration * perfmon_duration_sampler_t) :=
  _ ← rassert (negb (ended b));
  let b := Block (time b) true in
  s' ← end_ fast th now (time b) s;
  Returns (b, s').

(** The destructor, lines 206-208. *)
Definition block_destroy (fast : bool) (th : nat) (now : Z) (b : block_pm_duration)
    (s : perfmon_duration_sampler_t) : result perfmon_duration_sampler_t :=
  if ended b then Returns s
  else '(_, s') ← block_end fast th now b s; Returns s'.

(** ** Calls of a sampler, one after the other *)

Inductive sampler_call :=
| call_begin (th : nat) (now : Z)
| call_end (th : nat) (now : Z) (v : option Z).

Fixpoint calls (fast : bool) (cs : list sampler_call)
    (s : perfmon_duration_sampler_t) : result perfmon_duration_sampler_t :=
  match cs with
  | [] => Returns s
  | call_begin th now :: cs' =>
      '(_, s') ← begin fast th now None s; calls fast cs' s'
  | call_end th now v :: cs' =>
      s' ← end_ fast th now v s; calls fast cs' s'
  end.

Definition begins (cs : list sampler_call) : Z :=
  Z.of_nat (length (List.filter
    (fun c => match c with call_begin _ _ => true | _ => false end) cs)).
Definition ends (cs : list sampler_call) : Z :=
  Z.of_nat (length (List.filter
    (fun c => match c with call_end _ _ _ => true | _ => false end) cs)).
Definition records (cs : list sampler_call) : list (Z * Z) :=
  omap (fun c => match c with
                 | call_end _ now (Some start) => Some (now, start)
                 | _ => None
                 end) cs.

(** ** Properties of the counters *)

(** An operator that adds [d] to the element of the calling thread. *)
Lemma counter_update th d c c' :
  (v ← get th c; v' ← int64 (v + d); Returns (set th v' c)) = Returns c' ->
  exists v, values c !! th = Some v /\ in_int64 (v + d) = true /\
    c' = set th (v + d)%Z c.
Proof.
  unfold get, int64. destruct (values c !! th) as [v|]; [|done]. cbn.
  destruct (in_int64 (v + d)) eqn:Hin; [|done]. cbn.
  intros [= <-]. by exists v.
Qed.

Lemma value_set th v v' c :
  values c !! th = Some v -> value (set th v' c) = (value c + (v' - v))%Z.
Proof.
  unfold value, set. cbn. generalize (values c). intros l. revert th.
  induction l as [|x l IH]; intros [|th] Hl; simplify_eq/=; [lia|].
  rewrite (IH _ Hl). lia.
Qed.

Lemma well_formed_set th v c :
  in_int64 v = true -> well_formed c -> well_formed (set th v c).
Proof.
  unfold well_formed, set. cbn. intros Hv Hwf.
  destruct (decide (th < length (values c))) as [Hlt|Hge].
  - by apply Forall_insert.
  - by rewrite list_insert_ge by lia.
Qed.

(** What an operator leaves alone: the name, the number of threads, and the
    elements of the other threads; and every element is still an [int64_t]. *)
Definition only_touches (th : nat) (c c' : perfmon_counter_t) : Prop :=
  name c' = name c /\ length (values c') = length (values c) /\
  (forall th', th' <> th -> values c' !! th' = values c !! th') /\
  (well_formed c -> well_formed c').

Lemma update_moves_the_value th d c c' :
  (v ← get th c; v' ← int64 (v + d); Returns (set th v' c)) = Returns c' ->
  value c' = (value c + d)%Z /\ only_touches th c c'.
Proof.
  intros (v & Hv & Hin & ->)%counter_update. split.
  - rewrite (value_set _ v) by done. lia.
  - split_and!.
    + done.
    + cbn. by rewrite length_insert.
    + intros th' Hne. cbn. by rewrite list_lookup_insert_ne.
    + by apply well_formed_set.
Qed.

(** Each of the four operators of a counter, when it returns, has moved the
    value of the counter (the sum over the threads) by exactly its amount, and
    has touched the element of the calling thread only.  It returns whenever
    the calling thread has an element and the new element fits [int64_t]. *)
Theorem counter_operators_move_the_value th num c :
  (forall c', incr th c = Returns c' ->
     value c' = (value c + 1)%Z /\ only_touches th c c') /\
  (forall c', add th num c = Returns c' ->
     value c' = (value c + num)%Z /\ only_touches th c c') /\
  (forall c', decr th c = Returns c' ->
     value c' = (value c - 1)%Z /\ only_touches th c c') /\
  (forall c', sub th num c = Returns c' ->
     value c' = (value c - num)%Z /\ only_touches th c c') /\
  (forall v, values c !! th = Some v ->
     (in_int64 (v + 1) = true -> incr th c = Returns (set th (v + 1)%Z c)) /\
     (in_int64 (v + num) = true -> add th num c = Returns (set th (v + num)%Z c)) /\
     (in_int64 (v - 1) = true -> decr th c = Returns (set th (v - 1)%Z c)) /\
     (in_int64 (v - num) = true -> sub th num c = Returns (set th (v - num)%Z c))).
Proof.
  split_and!.
  - intros c'. apply (update_moves_the_value th 1).
  - intros c'. apply (update_moves_the_value th num).
  - intros c' H. apply (update_moves_the_value th (-1)) in H as [-> ?].
    split; [lia|done].
  - intros c' H. apply (update_moves_the_value th (- num)) in H as [-> ?].
    split; [lia|done].
  - intros v Hv. unfold incr, add, decr, sub, get, int64. rewrite Hv. cbn.
    split_and!; intros ->; done.
Qed.

(** On a counter whose elements are [int64_t] values, [-=] undoes [+=] and
    [+=] undoes [-=], and so do [--] and [++]: the counter is exactly the one
    before. *)
Theorem counter_add_then_sub_restores th num c c' :
  well_formed c ->
  (add th num c = Returns c' -> sub th num c' = Returns c) /\
  (sub th num c = Returns c' -> add th num c' = Returns c) /\
  (incr th c = Returns c' -> decr th c' = Returns c) /\
  (decr th c = Returns c' -> incr th c' = Returns c).
Proof.
  intros Hwf.
  assert (Hback : forall d e, (d + e = 0)%Z ->
    (v ← get th c; v' ← int64 (v + d); Returns (set th v' c)) = Returns c' ->
    (v ← get th c'; v' ← int64 (v + e); Returns (set th v' c')) = Returns c).
  { intros d e Hde (v & Hv & Hin & ->)%counter_update.
    unfold get, int64, set. cbn.
    rewrite list_lookup_insert_eq by (by eapply lookup_lt_Some). cbn.
    replace (v + d + e)%Z with v by lia.
    rewrite (proj1 (Forall_lookup _ _) Hwf _ _ Hv). cbn.
    rewrite list_insert_insert_eq, list_insert_id by done.
    by destruct c. }
  split_and!.
  - intros H. apply (Hback num (- num)%Z); [lia|done].
  - intros H. apply (Hback (- num)%Z num); [lia|done].
  - intros H. apply (Hback 1%Z (-1)%Z); [lia|done].
  - intros H. apply (Hback (-1)%Z 1%Z); [lia|done].
Qed.

(** Operators called from different threads commute: in either order the
    counter ends the same, or the process stops in both. *)
Theorem counter_operators_of_two_threads_commute th1 th2 d1 d2 c :
  th1 <> th2 ->
  (c1 ← add th1 d1 c; add th2 d2 c1) = (c2 ← add th2 d2 c; add th1 d1 c2).
Proof.
  intros Hne. unfold add, get, int64, set. cbn.
  destruct (values c !! th1) as [v1|] eqn:H1;
    destruct (values c !! th2) as [v2|] eqn:H2; cbn.
  - destruct (in_int64 (v1 + d1)) eqn:Hi1;
      destruct (in_int64 (v2 + d2)) eqn:Hi2; cbn;
      rewrite ?list_lookup_insert_ne, ?H1, ?H2 by done; cbn;
      rewrite ?Hi1, ?Hi2; cbn; try done.
    by rewrite list_insert_insert_ne.
  - destruct (in_int64 (v1 + d1)) eqn:Hi1; cbn; [|done].
    by rewrite list_lookup_insert_ne, H2.
  - destruct (in_int64 (v2 + d2)) eqn:Hi2; cbn; [|done].
    by rewrite list_lookup_insert_ne, H1.
  - done.
Qed.

(** ** Properties of the duration sampler *)

Lemma begin_returns fast th now v s v' s' :
  begin fast th now v s = Returns (v', s') ->
  value (active s') = (value (active s) + 1)%Z /\
  value (total s') = (value (total s) + 1)%Z /\
  recent s' = recent s /\
  v' = (if fast then v else Some now).
Proof.
  unfold begin.
  destruct (incr th (active s)) as [a| |] eqn:Ha; [|done..].
  destruct (incr th (total s)) as [t| |] eqn:Ht; [|done..]. cbn.
  intros [= <- <-]. cbn.
  apply (update_moves_the_value th 1) in Ha as [-> _].
  apply (update_moves_the_value th 1) in Ht as [-> _]. done.
Qed.

Lemma end_returns fast th now v s s' :
  end_ fast th now v s = Returns s' ->
  value (active s') = (value (active s) - 1)%Z /\
  total s' = total s /\
  recent s' = recent s ++
    (if fast then []
     else match v with Some start => [(now, start)] | None => [] end).
Proof.
  unfold end_.
  destruct (decr th (active s)) as [a| |] eqn:Ha; [|done..]. cbn.
  apply (update_moves_the_value th (-1)) in Ha as [Ha _].
  destruct fast.
  - intros [= <-]. cbn. rewrite app_nil_r. split; [lia|done].
  - destruct v as [start|]; [|done]. intros [= <-]. cbn. split; [lia|done].
Qed.

(** Over any sequence of [begin] and [end] calls that returns, from whatever
    threads, the value of [total] has grown by the number of [begin]s and the
    value of [active] by the number of [begin]s less the number of [end]s.
    Without [FAST_PERFMON], [recent] has received one record per [end], in
    the order of the calls, each with the tick of that call and the tick in
    the variable it was given; with [FAST_PERFMON] nothing is recorded. *)
Theorem sampler_counts_the_calls fast cs s s' :
  calls fast cs s = Returns s' ->
  value (active s') = (value (active s) + begins cs - ends cs)%Z /\
  value (total s') = (value (total s) + begins cs)%Z /\
  recent s' = recent s ++ (if fast then [] else records cs) /\
  (fast = false -> length (records cs) = Z.to_nat (ends cs)).
Proof.
  revert s. induction cs as [|[th now|th now v] cs IH]; intros s.
  - intros [= <-]. unfold begins, ends, records. cbn.
    destruct fast; rewrite app_nil_r; split_and!; try done; lia.
  - cbn [calls].
    destruct (begin fast th now None s) as [[v1 s1]| |] eqn:Hb; [|done..]. cbn.
    intros (Ha & Ht & Hr & Hl)%IH.
    apply begin_returns in Hb as (Ha1 & Ht1 & Hr1 & _).
    unfold begins, ends, records in *. cbn [List.filter omap list_omap length].
    rewrite Ha, Ht, Hr, Ha1, Ht1, Hr1. split_and!; try done; lia.
  - cbn [calls].
    destruct (end_ fast th now v s) as [s1| |] eqn:He; [|done..]. cbn.
    intros (Ha & Ht & Hr & Hl)%IH.
    assert (fast = false -> is_Some v) as Hv.
    { intros ->. unfold end_ in He.
      destruct (decr th (active s)); [|done..]. cbn in He.
      by destruct v. }
    apply end_returns in He as (Ha1 & Ht1 & Hr1).
    unfold begins, ends, records in *. cbn [List.filter omap list_omap length].
    rewrite Ha, Ht, Hr, Ha1, Ht1, Hr1. split_and!; try lia.
    + destruct fast; [by rewrite !app_nil_r|].
      destruct (Hv eq_refl) as [start ->]. cbn. by rewrite <- app_assoc.
    + intros ->. destruct (Hv eq_refl) as [start ->]. cbn.
      rewrite (Hl eq_refl). lia.
Qed.

(** ** Properties of the block guard *)

(** The life of a [block_pm_duration]: it is constructed, [end()] is called on
    it or not ([explicit_end] gives the thread and the tick of that call), and
    it is destroyed. *)
Definition block_life (fast : bool) (th0 : nat) (now0 : Z)
    (explicit_end : option (nat * Z)) (th1 : nat) (now1 : Z)
    (s : perfmon_duration_sampler_t) : result perfmon_duration_sampler_t :=
  '(b, s) ← block_new fast th0 now0 s;
  '(b, s) ← match explicit_end with
            | Some (th, now) => block_end fast th now b s
            | None => Returns (b, s)
            end;
  block_destroy fast th1 now1 b s.

(** The tick at which the block was ended. *)
Definition end_tick (explicit_end : option (nat * Z)) (now1 : Z) : Z :=
  match explicit_end with
  | Some (_, now) => now
  | None => now1
  end.

(** A [block_pm_duration] ends its block exactly once, whether [end()] was
    called on it or the destructor had to do it: over the life of the guard
    the value of [active] is back where it was, the value of [total] is one
    more, and without [FAST_PERFMON] exactly one record was made, from the
    tick of the construction to the tick of that one end.  On a guard that
    has ended, [end()] fails its assertion and the destructor does nothing.
    The life of a guard returns when the elements it touches have room: the
    elements of the constructing thread are below the maximum and the element
    of [active] of the ending thread is above the minimum. *)
Theorem block_guard_ends_exactly_once fast th0 now0 explicit_end th1 now1 s :
  (forall s', block_life fast th0 now0 explicit_end th1 now1 s = Returns s' ->
     value (active s') = value (active s) /\
     value (total s') = (value (total s) + 1)%Z /\
     recent s' = recent s ++
       (if fast then [] else [(end_tick explicit_end now1, now0)])) /\
  (forall th now b s1 b' s2, block_end fast th now b s1 = Returns (b', s2) ->
     ended b = false /\ ended b' = true /\
     (forall th' now' s3, block_end fast th' now' b' s3 = Aborts) /\
     (forall th' now' s3, block_destroy fast th' now' b' s3 = Returns s3)) /\
  (forall a0 t0 a1,
     well_formed (active s) ->
     values (active s) !! th0 = Some a0 -> (a0 < int64_max)%Z ->
     values (total s) !! th0 = Some t0 -> in_int64 (t0 + 1) = true ->
     values (active s) !!
       match explicit_end with Some (th, _) => th | None => th1 end = Some a1 ->
     (int64_min < a1)%Z ->
     exists s', block_life fast th0 now0 explicit_end th1 now1 s = Returns s').
Proof.
  split_and!.
  - intros s'. unfold block_life, block_new.
    destruct (begin fast th0 now0 None s) as [[v s0]| |] eqn:Hb; [|done..]. cbn.
    apply begin_returns in Hb as (Ha0 & Ht0 & Hr0 & ->).
    destruct explicit_end as [[th now]|]; cbn.
    + destruct (end_ fast th now (if fast then None else Some now0) s0)
        as [s1| |] eqn:He; [|done..]. cbn.
      intros [= <-].
      apply end_returns in He as (Ha1 & Ht1 & Hr1).
      rewrite Ha1, Ht1, Hr1, Ha0, Ht0, Hr0.
      split_and!; [lia|done|by destruct fast].
    + destruct (end_ fast th1 now1 (if fast then None else Some now0) s0)
        as [s1| |] eqn:He; [|done..]. cbn.
      intros [= <-].
      apply end_returns in He as (Ha1 & Ht1 & Hr1).
      rewrite Ha1, Ht1, Hr1, Ha0, Ht0, Hr0.
      split_and!; [lia|done|by destruct fast].
  - intros th now b s1 b' s2. unfold block_end, rassert.
    destruct (ended b) eqn:He; [done|]. cbn.
    destruct (end_ fast th now (time b) s1); [|done..]. cbn.
    intros [= <- <-]. split_and!; try done.
  - intros a0 t0 a1 Hwf Ha0 Hlt Ht0 Hin Ha1 Hgt.
    assert (Hrange : forall v, in_int64 v = true <-> (int64_min <= v <= int64_max)%Z).
    { intros v. unfold in_int64. rewrite andb_true_iff, !Z.leb_le. done. }
    pose proof (proj1 (Forall_lookup _ _) Hwf _ _ Ha0) as Hw0.
    pose proof (proj1 (Forall_lookup _ _) Hwf _ _ Ha1) as Hw1.
    apply Hrange in Hw0, Hw1.
    assert (in_int64 (a0 + 1) = true) as Hin0 by (apply Hrange; lia).
    assert (forall th now,
      values (active s) !! th = Some a1 ->
      exists s1, end_ fast th now (if fast then None else Some now0)
                   (Sampler (set th0 (a0 + 1)%Z (active s))
                      (set th0 (t0 + 1)%Z (total s)) (recent s))
                 = Returns s1) as Hend.
    { intros th now Hth. unfold end_, decr, get, int64. cbn.
      destruct (decide (th = th0)) as [->|Hne].
      - rewrite list_lookup_insert_eq by (by eapply lookup_lt_Some). cbn.
        assert (in_int64 (a0 + 1 - 1) = true) as -> by (apply Hrange; lia). cbn.
        destruct fast; eauto.
      - rewrite list_lookup_insert_ne, Hth by done. cbn.
        assert (in_int64 (a1 - 1) = true) as -> by (apply Hrange; lia). cbn.
        destruct fast; eauto. }
    unfold block_life, block_new, begin, incr, get, int64.
    rewrite Ha0, Ht0. cbn. rewrite Hin0, Hin. cbn.
    destruct explicit_end as [[th now]|]; cbn.
    + destruct (Hend th now Ha1) as [s1 ->]. cbn. eauto.
    + destruct (Hend th1 now1 Ha1) as [s1 ->]. cbn. eauto.
Qed.

(** ** The properties on concrete counters *)

(** A counter of three threads, and a duration sampler of two. *)
Definition counter0 : perfmon_counter_t := Counter [0; 5; -2]%Z "reads".
Definition sampler0 : perfmon_duration_sampler_t :=
  Sampler (Counter [0; 0]%Z "io_active_count") (Counter [7; 0]%Z "io_total") [].

Lemma counter_add_then_sub_restores_witness :
  add 1 40 counter0 = Returns (Counter [0; 45; -2]%Z "reads") /\
  sub 1 40 (Counter [0; 45; -2]%Z "reads") = Returns counter0.
Proof.
  split; [reflexivity|].
  refine (proj1 (counter_add_then_sub_restores 1 40 counter0 _ _) _).
  - repeat constructor.
  - reflexivity.
Defined.

Lemma counter_operators_of_two_threads_commute_witness :
  (c1 ← add 0 3 counter0; add 2 (-4) c1) = (c2 ← add 2 (-4) counter0; add 0 3 c2).
Proof.
  refine (counter_operators_of_two_threads_commute 0 2 3 (-4) counter0 _).
  discriminate.
Defined.

(** A block begins on thread 0 and ends on thread 1, another one begins on
    thread 1: the element of thread 1 is back at 0 while one block is open. *)
Lemma sampler_counts_the_calls_witness :
  exists s', calls false [call_begin 0 100; call_begin 1 110; call_end 1 150 (Some 100%Z)]
               sampler0 = Returns s' /\
    value (active s') = 1%Z /\ value (total s') = 9%Z /\
    recent s' = [(150, 100)]%Z.
Proof.
  eexists. split; [reflexivity|].
  pose proof (sampler_counts_the_calls false
    [call_begin 0 100; call_begin 1 110; call_end 1 150 (Some 100%Z)]
    sampler0 _ eq_refl) as (Ha & Ht & Hr & _).
  split; [exact Ha|]. split; [exact Ht|exact Hr].
Defined.

Lemma block_guard_ends_exactly_once_witness :
  exists s', block_life false 0 100 None 1 180 sampler0 = Returns s' /\
    value (active s') = 0%Z /\ value (total s') = 8%Z /\
    recent s' = [(180, 100)]%Z.
Proof.
  eexists. split; [reflexivity|].
  exact (proj1 (block_guard_ends_exactly_once false 0 100 None 1 180 sampler0)
           _ eq_refl).
Defined.

End Perfmon.
